(** * Randomized binary search tree (main.c): model and verification

    The C program keeps a binary search tree balanced by rebuilding, with
    probability 1/(size+1), the subtree in which a key is being inserted:
    the subtree is flattened into a sorted array together with the new key
    ([flattenRBST]) and rebuilt from that array with the new key pinned at
    the root and every other pivot drawn by [rand()] ([makeRBST]).

    The functions of main.c are embedded as computations of a small
    state-and-error monad over a [Machine]:
    - the C library is an [Oracle]: one tape per source of non-determinism
      ([rand], [drand48], [malloc]); theorems quantify over every oracle;
    - a [TreeNode*] is either [NULL] or a [Node] carrying the address that
      [malloc] returned for it together with the fields of the struct;
      ownership in main.c is strictly hierarchical, so the pointee is
      stored in place. Addresses number the allocations: block i is the
      one returned by call number i of [malloc] (a real allocator may hand
      out the address of a released block again; nothing below observes
      it);
    - the locals of [reconstructRBST] that [flattenRBST] updates through
      pointers ([curIndex], [newNodeIndex], [isAddedArr]), the counter
      [nodesVisited] and the array [bstArr] are fields of the machine;
    - [int] values are mathematical integers: signed overflow is undefined
      in C and does not arise for trees of fewer than 2^31 - 1 nodes. *)

From Stdlib Require Import ZArith QArith Lia List Sorted Permutation.
From stdpp Require Import base list sorting.

Local Close Scope Q_scope.
Local Open Scope Z_scope.

(** ** Data model *)

(** [struct TreeNode] reached through a [TreeNode*]: [self] is the address
    of the block, [key], [size], [left], [right] are the fields (patterns
    name the children [l] and [r]: [left] and [right] are constructors of
    the standard library). *)
Inductive TreeNode : Type :=
| NULL : TreeNode
| Node (self : nat) (key size : Z) (left right : TreeNode) : TreeNode.

(** [struct RBST] reached through a non-null [RBST*]. *)
Record RBST : Type := { rbst_self : nat; root : TreeNode }.

(** Accesses to the array [bstArr]. *)
Inductive access : Type :=
| Wr (i : Z)
| Rd (i : Z).

(** The C library, as far as main.c observes it. *)
Record Oracle : Type := {
  rand_tape : nat -> N;       (* value of the i-th call of rand() *)
  drand48_tape : nat -> N;    (* 48-bit state behind the i-th drand48() *)
  malloc_tape : nat -> bool   (* does the i-th call of malloc succeed? *)
}.

Record Machine : Type := {
  rand_calls : nat;             (* calls of rand() so far *)
  drand48_calls : nat;          (* calls of drand48() so far *)
  brk : nat;                    (* calls of malloc so far; next fresh address *)
  freed : list nat;             (* addresses passed to free, oldest first *)
  cells : list (option Z);      (* contents of bstArr; None: indeterminate *)
  accesses : list access;       (* accesses to bstArr, oldest first *)
  curIndex : Z;
  newNodeIndex : option Z;      (* None: not assigned yet *)
  isAdded : bool;               (* isAddedArr *)
  nodesVisited : Z
}.

Definition boot : Machine :=
  {| rand_calls := 0; drand48_calls := 0; brk := 0; freed := [];
     cells := []; accesses := []; curIndex := 0; newNodeIndex := None;
     isAdded := false; nodesVisited := 0 |}.

(** How a call ends. *)
Inductive outcome (A : Type) : Type :=
| Normal (a : A) (m : Machine)   (* the call returns [a] *)
| Exit (status : Z)              (* exit(status): the process is terminated *)
| Fault                          (* undefined behaviour: NULL or out-of-bounds
                                    access, read of an indeterminate value *)
| OutOfFuel.                     (* the recursion bound of the model was hit *)

Arguments Normal {A} a m.
Arguments Exit {A} status.
Arguments Fault {A}.
Arguments OutOfFuel {A}.

Definition M (A : Type) : Type := Machine -> outcome A.

Definition ret {A} (a : A) : M A := fun m => Normal a m.

Definition bind {A B} (c : M A) (k : A -> M B) : M B :=
  fun m =>
    match c m with
    | Normal a m' => k a m'
    | Exit s => Exit s
    | Fault => Fault
    | OutOfFuel => OutOfFuel
    end.

Notation "'do' x <- c ; k" := (bind c (fun x => k))
  (at level 10, x name, c at level 100, k at level 200).
Notation "'run' c ; k" := (bind c (fun _ => k))
  (at level 10, c at level 100, k at level 200).

Definition fault {A} : M A := fun _ => Fault.
Definition exit {A} (status : Z) : M A := fun _ => Exit status.
Definition get {A} (f : Machine -> A) : M A := fun m => Normal (f m) m.
Definition modify (f : Machine -> Machine) : M unit := fun m => Normal tt (f m).

(** Field updates. *)
Definition with_rand_calls (v : nat) (m : Machine) : Machine :=
  {| rand_calls := v; drand48_calls := drand48_calls m; brk := brk m;
     freed := freed m; cells := cells m; accesses := accesses m;
     curIndex := curIndex m; newNodeIndex := newNodeIndex m;
     isAdded := isAdded m; nodesVisited := nodesVisited m |}.
Definition with_drand48_calls (v : nat) (m : Machine) : Machine :=
  {| rand_calls := rand_calls m; drand48_calls := v; brk := brk m;
     freed := freed m; cells := cells m; accesses := accesses m;
     curIndex := curIndex m; newNodeIndex := newNodeIndex m;
     isAdded := isAdded m; nodesVisited := nodesVisited m |}.
Definition with_brk (v : nat) (m : Machine) : Machine :=
  {| rand_calls := rand_calls m; drand48_calls := drand48_calls m; brk := v;
     freed := freed m; cells := cells m; accesses := accesses m;
     curIndex := curIndex m; newNodeIndex := newNodeIndex m;
     isAdded := isAdded m; nodesVisited := nodesVisited m |}.
Definition with_freed (v : list nat) (m : Machine) : Machine :=
  {| rand_calls := rand_calls m; drand48_calls := drand48_calls m;
     brk := brk m; freed := v; cells := cells m; accesses := accesses m;
     curIndex := curIndex m; newNodeIndex := newNodeIndex m;
     isAdded := isAdded m; nodesVisited := nodesVisited m |}.
Definition with_array (c : list (option Z)) (a : list access) (m : Machine)
  : Machine :=
  {| rand_calls := rand_calls m; drand48_calls := drand48_calls m;
     brk := brk m; freed := freed m; cells := c; accesses := a;
     curIndex := curIndex m; newNodeIndex := newNodeIndex m;
     isAdded := isAdded m; nodesVisited := nodesVisited m |}.
Definition with_curIndex (v : Z) (m : Machine) : Machine :=
  {| rand_calls := rand_calls m; drand48_calls := drand48_calls m;
     brk := brk m; freed := freed m; cells := cells m;
     accesses := accesses m; curIndex := v; newNodeIndex := newNodeIndex m;
     isAdded := isAdded m; nodesVisited := nodesVisited m |}.
Definition with_newNodeIndex (v : option Z) (m : Machine) : Machine :=
  {| rand_calls := rand_calls m; drand48_calls := drand48_calls m;
     brk := brk m; freed := freed m; cells := cells m;
     accesses := accesses m; curIndex := curIndex m; newNodeIndex := v;
     isAdded := isAdded m; nodesVisited := nodesVisited m |}.
Definition with_isAdded (v : bool) (m : Machine) : Machine :=
  {| rand_calls := rand_calls m; drand48_calls := drand48_calls m;
     brk := brk m; freed := freed m; cells := cells m;
     accesses := accesses m; curIndex := curIndex m;
     newNodeIndex := newNodeIndex m; isAdded := v;
     nodesVisited := nodesVisited m |}.
Definition with_nodesVisited (v : Z) (m : Machine) : Machine :=
  {| rand_calls := rand_calls m; drand48_calls := drand48_calls m;
     brk := brk m; freed := freed m; cells := cells m;
     accesses := accesses m; curIndex := curIndex m;
     newNodeIndex := newNodeIndex m; isAdded := isAdded m;
     nodesVisited := v |}.

(** ** The C library *)

Section Library.
Variable o : Oracle.

(** [malloc]: the i-th call returns the fresh address i, or NULL. *)
Definition malloc : M (option nat) :=
  fun m =>
    Normal (if malloc_tape o (brk m) then Some (brk m) else None)
           (with_brk (S (brk m)) m).

Definition free (p : nat) : M unit :=
  modify (fun m => with_freed (freed m ++ [p]) m).

(** [rand()]: a non-negative int. *)
Definition rand : M Z :=
  fun m =>
    Normal (Z.of_N (rand_tape o (rand_calls m)))
           (with_rand_calls (S (rand_calls m)) m).

(** Value of the i-th [drand48()]: k / 2^48 for a 48-bit k, in [0.0, 1.0). *)
Definition drand48_value (i : nat) : Q :=
  Qmake (Z.of_N (drand48_tape o i) mod 2 ^ 48) (2 ^ 48).

Definition drand48 : M Q :=
  fun m =>
    Normal (drand48_value (drand48_calls m))
           (with_drand48_calls (S (drand48_calls m)) m).
End Library.

(** [d < (1.0 / (size + 1))] in exact arithmetic; 1.0 / 0 is +infinity. *)
Definition below_inverse (d : Q) (size : Z) : bool :=
  if size + 1 =? 0 then true
  else negb (Qle_bool (Qdiv 1 (inject_Z (size + 1))) d).

(** ** Array cells *)

(** [bstArr[i] = v] *)
Definition store (bstArr : option nat) (i v : Z) : M unit :=
  fun m =>
    match bstArr with
    | None => Fault
    | Some _ =>
        if (0 <=? i) && (i <? Z.of_nat (length (cells m))) then
          Normal tt (with_array (<[Z.to_nat i := Some v]> (cells m))
                                (accesses m ++ [Wr i]) m)
        else Fault
    end.

(** [bstArr[i]] as an rvalue *)
Definition load (bstArr : option nat) (i : Z) : M Z :=
  fun m =>
    match bstArr with
    | None => Fault
    | Some _ =>
        if (0 <=? i) && (i <? Z.of_nat (length (cells m))) then
          match cells m !! Z.to_nat i with
          | Some (Some v) =>
              Normal v (with_array (cells m) (accesses m ++ [Rd i]) m)
          | _ => Fault
          end
        else Fault
    end.

(** ** Field reads through a [TreeNode*] *)

Definition key_of (p : TreeNode) : M Z :=
  match p with NULL => fault | Node _ k _ _ _ => ret k end.

Definition size_of (p : TreeNode) : M Z :=
  match p with NULL => fault | Node _ _ s _ _ => ret s end.

(** The statement that increments the counter behind [nodesVisited]. *)
Definition incr_nodesVisited : M unit :=
  modify (fun m => with_nodesVisited (nodesVisited m + 1) m).

(** ** The functions of main.c *)

Section Program.
Variable o : Oracle.

Fixpoint height (node : TreeNode) : Z :=
  match node with
  | NULL => 0
  | Node _ _ _ l r =>
      let lheight := height l in
      let rheight := height r in
      if rheight <? lheight then lheight + 1 else rheight + 1
  end.

(** The handle is written through before any test of the pointer. *)
Definition initRBST : M RBST :=
  do bst <- malloc o;
  match bst with
  | None => fault
  | Some a => ret {| rbst_self := a; root := NULL |}
  end.

Definition createNode (key : Z) : M TreeNode :=
  do newNode <- malloc o;
  match newNode with
  | None => exit 0
  | Some a => ret (Node a key 1 NULL NULL)
  end.

(** Lines 94-95 (or 103-104) and 107-113 of [makeRBST]: the two children
    are stored in [newNode] and their sizes, when they are not NULL, are
    added to its size. *)
Definition adopt (newNode l r : TreeNode) : M TreeNode :=
  match newNode with
  | NULL => fault
  | Node a k s _ _ =>
      let s := match l with NULL => s | Node _ _ sl _ _ => s + sl end in
      let s := match r with NULL => s | Node _ _ sr _ _ => s + sr end in
      ret (Node a k s l r)
  end.

(** [fuel] bounds the depth of the recursion; [reconstructRBST] passes the
    length of the array, which is enough (lemma [makeRBST_random]). *)
Fixpoint makeRBST (fuel : nat) (bstArr : option nat)
    (first last newNodeIndex : Z) (isAdded : bool) : M TreeNode :=
  if last <? first then ret NULL
  else
    match fuel with
    | O => fun _ => OutOfFuel
    | S fuel =>
        run incr_nodesVisited;
        if negb isAdded then
          do k <- load bstArr newNodeIndex;
          do newNode <- createNode k;
          do l <- makeRBST fuel bstArr first (newNodeIndex - 1)
                           newNodeIndex true;
          do r <- makeRBST fuel bstArr (newNodeIndex + 1) last
                           newNodeIndex true;
          adopt newNode l r
        else
          do rnd <- rand o;
          let index := first + Z.rem rnd (last - first + 1) in
          do k <- load bstArr index;
          do newNode <- createNode k;
          do l <- makeRBST fuel bstArr first (index - 1) newNodeIndex true;
          do r <- makeRBST fuel bstArr (index + 1) last newNodeIndex true;
          adopt newNode l r
    end.

Fixpoint flattenRBST (bstArr : option nat) (newNode currentNode : TreeNode)
    (arrLength : Z) : M unit :=
  match currentNode with
  | NULL =>
      do added <- get isAdded;
      do ci <- get curIndex;
      if negb added && (ci =? arrLength - 1) then
        do k <- key_of newNode;
        run store bstArr ci k;
        run modify (with_newNodeIndex (Some ci));
        modify (with_curIndex (ci + 1))
      else ret tt
  | Node self key _ l r =>
      run flattenRBST bstArr newNode l arrLength;
      do k <- key_of newNode;
      do added <- get isAdded;
      run (if (k <? key) && negb added then
             do ci <- get curIndex;
             run store bstArr ci k;
             run modify (with_newNodeIndex (Some ci));
             run modify (with_curIndex (ci + 1));
             modify (with_isAdded true)
           else ret tt);
      run incr_nodesVisited;
      do ci <- get curIndex;
      run store bstArr ci key;
      run modify (with_curIndex (ci + 1));
      run flattenRBST bstArr newNode r arrLength;
      free self
  end.

(** [malloc(arrLength * sizeof(int))]: a block of indeterminate cells. *)
Definition malloc_ints (arrLength : Z) : M (option nat) :=
  do p <- malloc o;
  run modify (fun m =>
        match p with
        | None => m
        | Some _ => with_array (replicate (Z.to_nat arrLength) None)
                               (accesses m) m
        end);
  ret p.

(** [free(bstArr)]: the cells are gone. free(NULL) does nothing. *)
Definition free_ints (bstArr : option nat) : M unit :=
  match bstArr with
  | None => ret tt
  | Some p => run free p; modify (fun m => with_array [] (accesses m) m)
  end.

Definition free_node (p : TreeNode) : M unit :=
  match p with NULL => ret tt | Node a _ _ _ _ => free a end.

Definition reconstructRBST (currentNode newNode : TreeNode) : M TreeNode :=
  do size <- size_of currentNode;
  let arrLength := size + 1 in
  do bstArr <- malloc_ints arrLength;
  run modify (with_newNodeIndex None);     (* declared, not initialised *)
  run modify (with_curIndex 0);
  run modify (with_isAdded false);         (* isAddedArr *)
  let isAddedBST := false in
  run flattenRBST bstArr newNode currentNode arrLength;
  run free_node newNode;
  do idx <- get newNodeIndex;
  match idx with
  | None => fault
  | Some newNodeIndex =>
      do newNode <- makeRBST (Z.to_nat arrLength) bstArr 0 (arrLength - 1)
                             newNodeIndex isAddedBST;
      run free_ints bstArr;
      ret newNode
  end.

Fixpoint insertRBSTHelper (currentNode newNode : TreeNode) : M TreeNode :=
  match currentNode with
  | NULL => ret newNode
  | Node self key size l r =>
      run incr_nodesVisited;
      do d <- drand48 o;
      if below_inverse d size then
        reconstructRBST currentNode newNode
      else
        let size := size + 1 in
        do k <- key_of newNode;
        if k <? key then
          do l <- insertRBSTHelper l newNode;
          ret (Node self key size l r)
        else
          do r <- insertRBSTHelper r newNode;
          ret (Node self key size l r)
  end.

(** Returns the counter and the updated handle. *)
Definition insertRBST (bst : RBST) (key : Z) : M (Z * RBST) :=
  run modify (with_nodesVisited 0);
  do newNode <- createNode key;
  run incr_nodesVisited;
  match root bst with
  | NULL =>
      do n <- get nodesVisited;
      ret (n, {| rbst_self := rbst_self bst; root := newNode |})
  | Node _ _ _ _ _ =>
      do r <- insertRBSTHelper (root bst) newNode;
      do n <- get nodesVisited;
      ret (n, {| rbst_self := rbst_self bst; root := r |})
  end.

Fixpoint freeRBSTHelper (currentNode : TreeNode) : M unit :=
  match currentNode with
  | NULL => ret tt
  | Node self _ _ l r =>
      run incr_nodesVisited;
      run freeRBSTHelper l;
      run freeRBSTHelper r;
      free self
  end.

Definition freeRBST (bst : RBST) : M Z :=
  run modify (with_nodesVisited 0);
  run freeRBSTHelper (root bst);
  run free (rbst_self bst);
  get nodesVisited.

(** The insertion loop of [testInsertRBST] (lines 308-310), for keys
    supplied by the caller: the sum of the counters and the final handle. *)
Fixpoint insertKeys (bst : RBST) (keys : list Z) (total : Z)
  : M (Z * RBST) :=
  match keys with
  | [] => ret (total, bst)
  | key :: keys =>
      do r <- insertRBST bst key;
      insertKeys (snd r) keys (total + fst r)
  end.

End Program.

(** ** The driver: [testInsertRBST] and [scalingTests] *)

(** What [testInsertRBST] leaves behind: the value it returns, the cells
    of the caller's array [keys], and the height it prints (the line
    "Height: h"). *)
Record TestResult : Type := {
  test_return : Z;
  test_keys : list (option Z);
  test_height : Z
}.

Section Driver.
Variable o : Oracle.

(** Lines 293-295: [keys[i] = rand()] for [count] more indices from [i]. *)
Fixpoint fillKeys (count : nat) (i : Z) (keys : list (option Z))
  : M (list (option Z)) :=
  match count with
  | O => ret keys
  | S count =>
      do r <- rand o;
      if (0 <=? i) && (i <? Z.of_nat (length keys)) then
        fillKeys count (i + 1) (<[Z.to_nat i := Some r]> keys)
      else fault
  end.

(** Lines 308-310: [nodesVisited += insertRBST(bst, keys[i])] for [count]
    more indices from [i]. *)
Fixpoint insertFrom (count : nat) (i : Z) (keys : list (option Z))
    (bst : RBST) (nodesVisited : Z) : M (Z * RBST) :=
  match count with
  | O => ret (nodesVisited, bst)
  | S count =>
      if (0 <=? i) && (i <? Z.of_nat (length keys)) then
        match keys !! Z.to_nat i with
        | Some (Some key) =>
            do r <- insertRBST o bst key;
            insertFrom count (i + 1) keys (snd r) (nodesVisited + fst r)
        | _ => fault
        end
      else fault
  end.

(** [n] iterations of each loop when n is positive, none otherwise. The
    test [bst == NULL] of line 288 follows the store of [initRBST] through
    [bst] and cannot succeed. *)
Definition testInsertRBST (n : Z) (keys : list (option Z)) : M TestResult :=
  do bst <- initRBST o;
  let nodesVisited := 0 in
  do keys <- fillKeys (Z.to_nat n) 0 keys;
  do r <- insertFrom (Z.to_nat n) 0 keys bst nodesVisited;
  let nodesVisited := fst r in
  let bst := snd r in
  let h := height (root bst) in
  do f <- freeRBST bst;
  let nodesVisited := nodesVisited + f in
  ret {| test_return := nodesVisited; test_keys := keys; test_height := h |}.


End Driver.

(** ** Observations on trees *)

(** Keys met by an in-order traversal (left, self, right). *)
Fixpoint inorder (t : TreeNode) : list Z :=
  match t with
  | NULL => []
  | Node _ k _ l r => inorder l ++ k :: inorder r
  end.

(** Number of nodes. *)
Fixpoint count (t : TreeNode) : nat :=
  match t with
  | NULL => O
  | Node _ _ _ l r => S (count l + count r)
  end.

(** Addresses of the nodes: self, then left, then right. *)
Fixpoint addrs (t : TreeNode) : list nat :=
  match t with
  | NULL => []
  | Node a _ _ l r => a :: addrs l ++ addrs r
  end.

(** Addresses of the nodes: left, then right, then self. *)
Fixpoint postorder (t : TreeNode) : list nat :=
  match t with
  | NULL => []
  | Node a _ _ l r => postorder l ++ postorder r ++ [a]
  end.

(** [size(p, default 0)]: the size field, 0 for an absent subtree. *)
Definition subtree_size (t : TreeNode) : Z :=
  match t with NULL => 0 | Node _ _ s _ _ => s end.

(** Size invariant: size == 1 + size(left) + size(right) at every node. *)
Fixpoint size_inv (t : TreeNode) : Prop :=
  match t with
  | NULL => True
  | Node _ _ s l r =>
      s = 1 + subtree_size l + subtree_size r /\ size_inv l /\ size_inv r
  end.

(** The ordering invariant as the specification words it: keys of the
    left subtree strictly below the key, keys of the right subtree at or
    above it. *)
Fixpoint bst_ordering (t : TreeNode) : Prop :=
  match t with
  | NULL => True
  | Node _ k _ l r =>
      Forall (fun x => x < k) (inorder l) /\
      Forall (fun x => k <= x) (inorder r) /\
      bst_ordering l /\ bst_ordering r
  end.

(** The ordering that every insertion maintains: keys of the left subtree
    at or below the key, keys of the right subtree at or above it. *)
Fixpoint ordered (t : TreeNode) : Prop :=
  match t with
  | NULL => True
  | Node _ k _ l r =>
      Forall (fun x => x <= k) (inorder l) /\
      Forall (fun x => k <= x) (inorder r) /\
      ordered l /\ ordered r
  end.

(** [place x l]: [x] put in front of the first element of [l] that is
    strictly greater, at the end when there is none. *)
Fixpoint place (x : Z) (l : list Z) : list Z :=
  match l with
  | [] => [x]
  | y :: l' => if x <? y then x :: l else y :: place x l'
  end.

(** Position that [place x l] gives to [x]. *)
Fixpoint rank (x : Z) (l : list Z) : nat :=
  match l with
  | [] => O
  | y :: l' => if x <? y then O else S (rank x l')
  end.

(** What [flattenRBST] has done so far, seen from outside: the keys
    written, the flag [isAddedArr], the recorded index. *)
Definition flat : Type := list Z * bool * option Z.

(** Lines 142-151: one node of the traversal with key [y]. *)
Definition visit (x : Z) (s : flat) (y : Z) : flat :=
  let '(w, b, idx) := s in
  if (x <? y) && negb b
  then (w ++ [x; y], true, Some (Z.of_nat (length w)))
  else (w ++ [y], b, idx).

(** Lines 129-133: an absent child. *)
Definition finish (x arrLength : Z) (s : flat) : flat :=
  let '(w, b, idx) := s in
  if negb b && (Z.of_nat (length w) =? arrLength - 1)
  then (w ++ [x], b, Some (Z.of_nat (length w)))
  else s.

(** Keys of the array between two indices, both included. *)
Definition slice (ks : list Z) (first last : Z) : list Z :=
  take (Z.to_nat (last - first + 1)) (drop (Z.to_nat first) ks).

(** No call of malloc fails. *)
Definition alloc_ok (o : Oracle) : Prop := forall i, malloc_tape o i = true.

(** A chain: no Node has a left child. *)
Fixpoint right_chain (t : TreeNode) : Prop :=
  match t with
  | NULL => True
  | Node _ _ _ l r => l = NULL /\ right_chain r
  end.

(** The values of [count] consecutive calls of [rand], from call number
    [start] on. *)
Definition rands (o : Oracle) (start count : nat) : list Z :=
  (fun j => Z.of_N (rand_tape o j)) <$> seq start count.

(** Where a computation may end when malloc is allowed to fail: normally
    with [P], or by exit(0), or in a fault when [F] holds. *)
Definition ends {A} (c : outcome A) (P : A -> Machine -> Prop) (F : Prop)
  : Prop :=
  match c with
  | Normal a m => P a m
  | Exit s => s = 0
  | Fault => F
  | OutOfFuel => False
  end.

(** Number of nodes at which [insertRBSTHelper] is entered when the key
    [x] is inserted into [t] and the next value of drand48 is the i-th. *)
Fixpoint descended (o : Oracle) (x : Z) (t : TreeNode) (i : nat) : nat :=
  match t with
  | NULL => O
  | Node _ k s l r =>
      if below_inverse (drand48_value o i) s then 1%nat
      else S (descended o x (if x <? k then l else r) (S i))
  end.

(** The subtree that this insertion flattens and rebuilds, if any. *)
Fixpoint rebuilt (o : Oracle) (x : Z) (t : TreeNode) (i : nat)
  : option TreeNode :=
  match t with
  | NULL => None
  | Node _ k s l r =>
      if below_inverse (drand48_value o i) s then Some t
      else rebuilt o x (if x <? k then l else r) (S i)
  end.

(** Number of increments of the counter during [insertRBST]. *)
Definition work (o : Oracle) (x : Z) (t : TreeNode) (i : nat) : Z :=
  1 + Z.of_nat (descended o x t i) +
  match rebuilt o x t i with
  | None => 0
  | Some c => Z.of_nat (count c) + (Z.of_nat (count c) + 1)
  end.

(** The count that the specification gives to the counter of C7: the
    Nodes descended through plus the Nodes of a rebuilt subtree. *)
Definition descended_or_rebuilt (o : Oracle) (x : Z) (t : TreeNode)
    (i : nat) : Z :=
  Z.of_nat (descended o x t i) +
  match rebuilt o x t i with
  | None => 0
  | Some c => Z.of_nat (count c) + 1
  end.

(** What every handle built by insertions satisfies. *)
Definition wf (m : Machine) (t : TreeNode) : Prop :=
  size_inv t /\ ordered t /\ NoDup (addrs t) /\
  Forall (fun b => (b < brk m)%nat) (addrs t).

(** Insertion sort by [place]: the in-order keys after a run of
    insertions. *)
Definition placed (keys init : list Z) : list Z :=
  fold_left (fun l k => place k l) keys init.

(** ** Oracles for the examples *)

(** drand48 returns 0.0: every non-empty subtree met is rebuilt. *)
Definition always_rebuild : Oracle :=
  {| rand_tape := fun _ => 0%N;
     drand48_tape := fun _ => 0%N;
     malloc_tape := fun _ => true |}.

(** drand48 returns 1 - 2^-48: the key descends to an absent child. *)
Definition never_rebuild : Oracle :=
  {| rand_tape := fun _ => 0%N;
     drand48_tape := fun _ => (2 ^ 48 - 1)%N;
     malloc_tape := fun _ => true |}.

(** As [always_rebuild], but call number n of malloc (from 0) returns
    NULL. *)
Definition exhausted_at (n : nat) : Oracle :=
  {| rand_tape := fun _ => 0%N;
     drand48_tape := fun _ => 0%N;
     malloc_tape := fun i => negb (i =? n)%nat |}.

(** In-order keys, number of nodes and height after the insertion of
    [keys] into a fresh tree on a fresh machine. *)
Definition observe (o : Oracle) (keys : list Z)
  : option (list Z * nat * Z) :=
  match (do bst <- initRBST o; insertKeys o bst keys 0) boot with
  | Normal (_, bst) _ =>
      Some (inorder (root bst), count (root bst), height (root bst))
  | _ => None
  end.

(** ** Lists: [place], [rank] and the traversal *)

Lemma place_perm x l : Permutation (place x l) (x :: l).
Proof.
  induction l as [|y l IH]; simpl; [reflexivity|].
  destruct (x <? y); [reflexivity|].
  rewrite IH. apply perm_swap.
Qed.

Lemma place_length x l : length (place x l) = S (length l).
Proof. apply (Permutation_length (place_perm x l)). Qed.

Lemma rank_le x l : (rank x l <= length l)%nat.
Proof. induction l as [|y l IH]; simpl; [lia|]. destruct (x <? y); lia. Qed.

Lemma place_rank x l :
  place x l = take (rank x l) l ++ x :: drop (rank x l) l.
Proof.
  induction l as [|y l IH]; simpl; [reflexivity|].
  destruct (x <? y); simpl; [reflexivity|]. now rewrite IH.
Qed.

Lemma place_lookup x l : place x l !! rank x l = Some x.
Proof.
  induction l as [|y l IH]; simpl; [reflexivity|].
  destruct (x <? y); simpl; auto.
Qed.

(** Everything in front of the new key is at or below it, and the key that
    follows it is strictly greater. *)
Lemma place_before x l :
  Forall (fun y => y <= x) (take (rank x l) l).
Proof.
  induction l as [|y l IH]; simpl; [constructor|].
  destruct (x <? y) eqn:E; simpl; [constructor|].
  constructor; [lia|exact IH].
Qed.

Lemma place_after x l y :
  l !! rank x l = Some y -> x < y.
Proof.
  induction l as [|z l IH]; simpl; [discriminate|].
  destruct (x <? z) eqn:E; simpl; [intros [= <-]; lia|exact IH].
Qed.

Lemma place_sorted x l :
  StronglySorted Z.le l -> StronglySorted Z.le (place x l).
Proof.
  induction 1 as [|y l Hs IH Hall]; simpl.
  - repeat constructor.
  - destruct (x <? y) eqn:E.
    + constructor; [constructor; assumption|].
      constructor; [lia|].
      eapply Forall_impl; [exact Hall|]. simpl. intros; lia.
    + constructor; [exact IH|].
      rewrite (place_perm x l). constructor; [lia|exact Hall].
Qed.

Lemma place_app_l x l1 l2 :
  (rank x l1 < length l1)%nat -> place x (l1 ++ l2) = place x l1 ++ l2.
Proof.
  induction l1 as [|y l1 IH]; simpl; [lia|].
  destruct (x <? y); simpl; [reflexivity|].
  intros H. rewrite IH by lia. reflexivity.
Qed.

Lemma place_app_r x l1 l2 :
  Forall (fun y => y <= x) l1 -> place x (l1 ++ l2) = l1 ++ place x l2.
Proof.
  induction 1 as [|y l1 Hy _ IH]; simpl; [reflexivity|].
  destruct (x <? y) eqn:E; [lia|]. now rewrite IH.
Qed.

Lemma rank_lt_or x l :
  (rank x l < length l)%nat \/ place x l = l ++ [x].
Proof.
  induction l as [|y l IH]; simpl; [now right|].
  destruct (x <? y); simpl; [left; lia|].
  destruct IH as [IH|IH]; [left; lia|right; now rewrite IH].
Qed.

Lemma fold_visit_added x ks w idx :
  fold_left (visit x) ks (w, true, idx) = (w ++ ks, true, idx).
Proof.
  revert w. induction ks as [|y ks IH]; intros w; simpl.
  - now rewrite app_nil_r.
  - rewrite andb_false_r, IH, <- app_assoc. reflexivity.
Qed.

Lemma fold_visit_pending x ks w idx :
  fold_left (visit x) ks (w, false, idx) =
    if (rank x ks <? length ks)%nat
    then (w ++ place x ks, true, Some (Z.of_nat (length w + rank x ks)))
    else (w ++ ks, false, idx).
Proof.
  revert w. induction ks as [|y ks IH]; intros w; simpl.
  - now rewrite app_nil_r.
  - destruct (x <? y) eqn:E; simpl.
    + rewrite fold_visit_added, <- app_assoc, Nat.add_0_r. reflexivity.
    + rewrite IH, length_app. simpl.
      change (S (rank x ks) <? S (length ks))%nat
        with (rank x ks <? length ks)%nat.
      replace (length w + 1 + rank x ks)%nat
        with (length w + S (rank x ks))%nat by lia.
      destruct (rank x ks <? length ks)%nat; rewrite <- app_assoc;
        reflexivity.
Qed.

(** Length and flag after a run of [visit]: at most one extra key, and the
    flag never goes back. *)
Lemma fold_visit_shape x ks w b idx w' b' idx' :
  fold_left (visit x) ks (w, b, idx) = (w', b', idx') ->
  length w' = (length w + length ks + (if b' && negb b then 1 else 0))%nat
  /\ (b = true -> b' = true).
Proof.
  destruct b.
  - rewrite fold_visit_added. intros [= <- <- <-].
    rewrite length_app. simpl. split; [lia|reflexivity].
  - rewrite fold_visit_pending.
    destruct (rank x ks <? length ks)%nat; intros [= <- <- <-];
      rewrite length_app; [rewrite place_length|]; simpl;
      (split; [lia|discriminate]).
Qed.

(** A whole traversal that starts on an empty array of [length ks + 1]
    cells writes [place x ks] and records [rank x ks]. *)
Lemma traversal_place x ks idx :
  exists b,
    finish x (Z.of_nat (length ks) + 1)
           (fold_left (visit x) ks ([], false, idx)) =
    (place x ks, b, Some (Z.of_nat (rank x ks))).
Proof.
  rewrite fold_visit_pending. simpl.
  destruct (rank x ks <? length ks)%nat eqn:E; simpl.
  - exists true. reflexivity.
  - exists false. apply Nat.ltb_ge in E. pose proof (rank_le x ks).
    replace (Z.of_nat (length ks) =? Z.of_nat (length ks) + 1 - 1) with true
      by (symmetry; apply Z.eqb_eq; lia).
    destruct (rank_lt_or x ks) as [H1|H1]; [lia|].
    rewrite H1. repeat f_equal. lia.
Qed.

(** ** Running the embedded functions *)

Arguments store : simpl never.
Arguments load : simpl never.
Arguments malloc : simpl never.
Arguments rand : simpl never.
Arguments drand48 : simpl never.
Arguments adopt : simpl never.
Arguments createNode : simpl never.

Ltac unfold_setters :=
  unfold with_rand_calls, with_drand48_calls, with_brk, with_freed,
    with_array, with_curIndex, with_newNodeIndex, with_isAdded,
    with_nodesVisited in *.

Ltac run_step :=
  unfold bind, get, modify, ret, fault, key_of, size_of, incr_nodesVisited,
    free in *; unfold_setters; simpl.

Lemma store_next p m w n i v :
  cells m = (Some <$> w) ++ replicate n None ->
  i = Z.of_nat (length w) ->
  (0 < n)%nat ->
  store (Some p) i v m =
    Normal tt (with_array ((Some <$> (w ++ [v])) ++ replicate (n - 1) None)
                          (accesses m ++ [Wr i]) m).
Proof.
  intros H -> Hn. unfold store. rewrite H.
  rewrite length_app, length_fmap, length_replicate, Nat2Z.id.
  replace ((0 <=? Z.of_nat (length w)) &&
           (Z.of_nat (length w) <? Z.of_nat (length w + n))) with true
    by (symmetry; apply andb_true_iff; split;
        [apply Z.leb_le|apply Z.ltb_lt]; lia).
  rewrite insert_app_r_alt by (rewrite length_fmap; lia).
  rewrite length_fmap, Nat.sub_diag.
  destruct n as [|n]; [lia|]. simpl. rewrite Nat.sub_0_r.
  rewrite fmap_app, <- app_assoc. reflexivity.
Qed.

Lemma seqZ_snoc a n : 0 <= n -> seqZ a n ++ [a + n] = seqZ a (n + 1).
Proof.
  intros H. rewrite seqZ_app by lia.
  rewrite (seqZ_cons (a + n) 1) by lia.
  rewrite (seqZ_nil (Z.succ (a + n))) by lia. reflexivity.
Qed.

Lemma finish_skip x arrLength w b idx :
  (b = false -> Z.of_nat (length w) < arrLength - 1) ->
  finish x arrLength (w, b, idx) = (w, b, idx).
Proof.
  intros H. unfold finish. destruct b; simpl; [reflexivity|].
  replace (Z.of_nat (length w) =? arrLength - 1) with false; [reflexivity|].
  symmetry. apply Z.eqb_neq. specialize (H eq_refl). lia.
Qed.

Lemma finish_fold_length x L ks w b idx s' :
  finish x L (fold_left (visit x) ks (w, b, idx)) = s' ->
  (length w + length ks <= length s'.1.1)%nat.
Proof.
  destruct (fold_left (visit x) ks (w, b, idx)) as [[w' b'] idx'] eqn:E.
  destruct (fold_visit_shape _ _ _ _ _ _ _ _ E) as [Hl _].
  unfold finish.
  destruct (negb b' && (Z.of_nat (length w') =? L - 1)); intros <-; simpl;
    rewrite ?length_app; lia.
Qed.

(** The log of a run of consecutive writes. *)
Lemma writes_join (acc : list access) a n1 (mid : list Z) b n2 n :
  0 <= n1 -> 0 <= n2 ->
  mid = seqZ (a + n1) (Z.of_nat (length mid)) ->
  b = a + n1 + Z.of_nat (length mid) ->
  n = n1 + Z.of_nat (length mid) + n2 ->
  acc ++ (Wr <$> seqZ a n1) ++ (Wr <$> mid) ++ (Wr <$> seqZ b n2) =
  acc ++ (Wr <$> seqZ a n).
Proof.
  intros H1 H2 Hmid -> ->. f_equal.
  rewrite <- !fmap_app. f_equal.
  replace (n1 + Z.of_nat (length mid) + n2)
    with (n1 + (Z.of_nat (length mid) + n2)) by lia.
  rewrite (seqZ_app a n1) by lia.
  rewrite (seqZ_app (a + n1)) by lia.
  rewrite <- Hmid. reflexivity.
Qed.

Ltac seqZ_list :=
  repeat (rewrite seqZ_cons by lia); rewrite seqZ_nil by lia;
  repeat (f_equal; try lia).

Lemma flattenRBST_run p a x sz0 l0 r0 arrLength t :
  forall m w k s',
    cells m = (Some <$> w) ++ replicate k None ->
    curIndex m = Z.of_nat (length w) ->
    arrLength = Z.of_nat (length w + k) ->
    (length (inorder t) + (if isAdded m then 0 else 1) <= k)%nat ->
    finish x arrLength
      (fold_left (visit x) (inorder t) (w, isAdded m, newNodeIndex m)) = s' ->
    flattenRBST (Some p) (Node a x sz0 l0 r0) t arrLength m =
      Normal tt
        {| rand_calls := rand_calls m; drand48_calls := drand48_calls m;
           brk := brk m; freed := freed m ++ postorder t;
           cells := (Some <$> s'.1.1) ++
                    replicate (length w + k - length s'.1.1) None;
           accesses := accesses m ++
             (Wr <$> seqZ (Z.of_nat (length w))
                          (Z.of_nat (length s'.1.1) - Z.of_nat (length w)));
           curIndex := Z.of_nat (length s'.1.1);
           newNodeIndex := s'.2;
           isAdded := s'.1.2;
           nodesVisited := nodesVisited m + Z.of_nat (length (inorder t)) |}.
Proof.
  induction t as [|self key sz l IHl r IHr]; intros m w k s' Hc Hi Hlen Hroom Hs.
  - simpl in *. unfold bind, get. rewrite Hi. subst s'. unfold finish.
    destruct (negb (isAdded m) && (Z.of_nat (length w) =? arrLength - 1)) eqn:E.
    + apply andb_true_iff in E. destruct E as [E1 E2].
      apply negb_true_iff in E1. rewrite E1 in Hroom.
      simpl. rewrite (store_next p m w k _ x Hc eq_refl) by lia. run_step.
      rewrite length_app. simpl.
      destruct m; simpl in *; subst. f_equal. f_equal.
      * now rewrite app_nil_r.
      * do 2 f_equal. lia.
      * f_equal.
        replace (Z.of_nat (length w + 1) - Z.of_nat (length w)) with (0 + 1)
          by lia.
        rewrite <- seqZ_snoc by lia. rewrite seqZ_nil by lia. simpl.
        do 2 f_equal. lia.
      * lia.
      * lia.
    + run_step. destruct m; simpl in *; subst. f_equal. f_equal.
      * now rewrite app_nil_r.
      * do 2 f_equal. lia.
      * rewrite seqZ_nil by lia. simpl. now rewrite app_nil_r.
      * lia.
  - simpl in Hs, Hroom. rewrite fold_left_app in Hs. simpl in Hs.
    destruct (fold_left (visit x) (inorder l) (w, isAdded m, newNodeIndex m))
      as [[w1 b1] idx1] eqn:E1.
    destruct (fold_visit_shape _ _ _ _ _ _ _ _ E1) as [Hl1 Hb1].
    rewrite length_app in Hroom. simpl in Hroom.
    assert (Hfin : finish x arrLength
                     (fold_left (visit x) (inorder l)
                        (w, isAdded m, newNodeIndex m)) = (w1, b1, idx1)).
    { rewrite E1. apply finish_skip. intros ->.
      destruct (isAdded m); [specialize (Hb1 eq_refl); discriminate|].
      simpl in Hl1. lia. }
    assert (Hroom1 : (length (inorder l) + (if isAdded m then 0 else 1)
                      <= k)%nat) by lia.
    simpl. unfold bind at 1.
    rewrite (IHl m w k (w1, b1, idx1) Hc Hi Hlen Hroom1 Hfin).
    clear IHl Hfin Hroom1 E1.
    unfold visit in Hs.
    destruct ((x <? key) && negb b1) eqn:Ev.
    + apply andb_true_iff in Ev. destruct Ev as [Ex Eb].
      apply negb_true_iff in Eb. subst b1.
      destruct (isAdded m) eqn:Eadd; [specialize (Hb1 eq_refl); discriminate|].
      simpl in Hl1. run_step. rewrite Ex. simpl.
      erewrite (store_next p _ w1);
        [|simpl; reflexivity|simpl; reflexivity|simpl; lia].
      simpl.
      erewrite (store_next p _ (w1 ++ [x]));
        [|simpl; reflexivity|rewrite length_app; simpl; lia|simpl; lia].
      simpl. rewrite <- app_assoc. simpl.
      erewrite (IHr _ (w1 ++ [x; key]));
        [|simpl; reflexivity|rewrite length_app; simpl; lia
         |simpl; rewrite length_app; simpl; lia
         |simpl; lia|simpl; exact Hs].
      pose proof (finish_fold_length _ _ _ _ _ _ _ Hs) as Hmono.
      rewrite length_app in Hmono. simpl in Hmono.
      unfold modify. simpl. f_equal. f_equal.
      * rewrite <- !app_assoc. reflexivity.
      * do 2 f_equal. rewrite length_app. simpl. lia.
      * rewrite <- !app_assoc. simpl.
        apply (writes_join _ _ _ [Z.of_nat (length w1);
                                  Z.of_nat (length w1) + 1]);
          rewrite ?length_app; simpl; try lia.
        seqZ_list.
      * rewrite length_app. simpl. lia.
    + assert (Hle : (length w1 <= length w + length (inorder l) + 1)%nat)
        by (destruct (b1 && negb (isAdded m)); lia).
      assert (Hk : (length w1 + S (length (inorder r)) +
                    (if b1 then 0 else 1) <= length w + k)%nat).
      { destruct b1; simpl in *.
        - destruct (isAdded m); simpl in *; lia.
        - destruct (isAdded m); [specialize (Hb1 eq_refl); discriminate|].
          simpl in *. lia. }
      run_step. rewrite Ev. simpl.
      erewrite (store_next p _ w1);
        [|simpl; reflexivity|simpl; reflexivity|simpl; lia].
      simpl.
      erewrite (IHr _ (w1 ++ [key]));
        [|simpl; reflexivity|rewrite length_app; simpl; lia
         |simpl; rewrite length_app; simpl; lia
         |simpl; destruct b1; lia|simpl; exact Hs].
      pose proof (finish_fold_length _ _ _ _ _ _ _ Hs) as Hmono.
      rewrite length_app in Hmono. simpl in Hmono.
      unfold modify. simpl. f_equal. f_equal.
      * rewrite <- !app_assoc. reflexivity.
      * do 2 f_equal. rewrite length_app. simpl. lia.
      * rewrite <- !app_assoc. simpl.
        apply (writes_join _ _ _ [Z.of_nat (length w1)]);
          rewrite ?length_app; simpl; try lia.
        seqZ_list.
      * rewrite length_app. simpl. lia.
Qed.

Lemma load_run p m ks i v :
  cells m = Some <$> ks ->
  0 <= i ->
  ks !! Z.to_nat i = Some v ->
  load (Some p) i m =
    Normal v (with_array (cells m) (accesses m ++ [Rd i]) m).
Proof.
  intros Hc Hi Hv. unfold load. rewrite Hc.
  pose proof (lookup_lt_Some _ _ _ Hv) as Hlt.
  rewrite length_fmap, list_lookup_fmap, Hv. simpl.
  replace ((0 <=? i) && (i <? Z.of_nat (length ks))) with true;
    [reflexivity|].
  symmetry. apply andb_true_iff; split; [apply Z.leb_le|apply Z.ltb_lt]; lia.
Qed.

Lemma adopt_run a k l r m :
  adopt (Node a k 1 NULL NULL) l r m =
    Normal (Node a k (1 + subtree_size l + subtree_size r) l r) m.
Proof.
  unfold adopt, ret. destruct l, r; simpl; do 2 f_equal; lia.
Qed.

(** From here to the end of the section every call of malloc succeeds. *)
Section Allocations_succeed.
Variable o : Oracle.
Hypothesis Ho : alloc_ok o.

Lemma createNode_run key m :
  createNode o key m =
    Normal (Node (brk m) key 1 NULL NULL) (with_brk (S (brk m)) m).
Proof. unfold createNode, bind, malloc. rewrite Ho. reflexivity. Qed.

Lemma inorder_length t : length (inorder t) = count t.
Proof.
  induction t as [|a k s l IHl r IHr]; simpl; [reflexivity|].
  rewrite length_app. simpl. lia.
Qed.

Lemma addrs_length t : length (addrs t) = count t.
Proof.
  induction t as [|a k s l IHl r IHr]; simpl; [reflexivity|].
  rewrite length_app. lia.
Qed.

Lemma slice_empty ks first last : last < first -> slice ks first last = [].
Proof.
  intros H. unfold slice. replace (Z.to_nat (last - first + 1)) with O by lia.
  reflexivity.
Qed.

Lemma slice_split ks first last i v :
  0 <= first -> first <= i <= last ->
  ks !! Z.to_nat i = Some v ->
  slice ks first last = slice ks first (i - 1) ++ v :: slice ks (i + 1) last.
Proof.
  intros Hf Hi Hv. unfold slice.
  replace (Z.to_nat (last - first + 1))
    with (Z.to_nat (i - 1 - first + 1) + S (Z.to_nat (last - (i + 1) + 1)))%nat
    by lia.
  rewrite <- take_take_drop. f_equal.
  rewrite drop_drop.
  replace (Z.to_nat first + Z.to_nat (i - 1 - first + 1))%nat
    with (Z.to_nat i) by lia.
  rewrite (drop_S _ _ _ Hv). simpl.
  replace (Z.to_nat (i + 1)) with (S (Z.to_nat i)) by lia.
  reflexivity.
Qed.

Lemma slice_length ks first last :
  0 <= first -> last < Z.of_nat (length ks) -> first <= last + 1 ->
  length (slice ks first last) = Z.to_nat (last - first + 1).
Proof.
  intros. unfold slice. rewrite length_take, length_drop. lia.
Qed.

Lemma slice_all ks : slice ks 0 (Z.of_nat (length ks) - 1) = ks.
Proof.
  unfold slice. simpl.
  replace (Z.to_nat (Z.of_nat (length ks) - 1 - 0 + 1)) with (length ks)
    by lia.
  apply firstn_all.
Qed.

(** A call of [makeRBST] that draws its pivot (isAdded is true) on a range
    of an array that is written in full. *)
Lemma makeRBST_random p ks nni :
  forall fuel first last m,
    cells m = Some <$> ks ->
    0 <= first -> last < Z.of_nat (length ks) -> first <= last + 1 ->
    (Z.to_nat (last - first + 1) <= fuel)%nat ->
    exists t rc idxs,
      makeRBST o fuel (Some p) first last nni true m =
        Normal t
          {| rand_calls := rc; drand48_calls := drand48_calls m;
             brk := brk m + count t; freed := freed m; cells := cells m;
             accesses := accesses m ++ (Rd <$> idxs);
             curIndex := curIndex m; newNodeIndex := newNodeIndex m;
             isAdded := isAdded m;
             nodesVisited := nodesVisited m + Z.of_nat (count t) |}
      /\ inorder t = slice ks first last
      /\ size_inv t
      /\ subtree_size t = Z.of_nat (count t)
      /\ addrs t = seq (brk m) (count t)
      /\ Permutation idxs (seqZ first (last - first + 1)).
Proof.
  induction fuel as [|fuel IH]; intros first last m Hc Hf Hl Hfl Hfuel.
  - assert (last < first) by lia.
    exists NULL, (rand_calls m), []. simpl.
    replace (last <? first) with true by (symmetry; apply Z.ltb_lt; lia).
    rewrite slice_empty, seqZ_nil by lia.
    repeat split; auto.
    unfold ret. destruct m; simpl. f_equal. f_equal; try lia.
    now rewrite app_nil_r.
  - simpl. destruct (last <? first) eqn:E.
    + apply Z.ltb_lt in E.
      exists NULL, (rand_calls m), []. simpl.
      rewrite slice_empty, seqZ_nil by lia.
      repeat split; auto.
      unfold ret. destruct m; simpl. f_equal. f_equal; try lia.
      now rewrite app_nil_r.
    + apply Z.ltb_ge in E.
      set (rnd := Z.of_N (rand_tape o (rand_calls m))).
      set (index := first + Z.rem rnd (last - first + 1)).
      assert (Hidx : first <= index <= last).
      { pose proof (Z.rem_bound_pos rnd (last - first + 1)).
        subst index rnd. lia. }
      destruct (ks !! Z.to_nat index) as [v|] eqn:Ev;
        [|apply lookup_ge_None in Ev; lia].
      unfold bind at 1. unfold incr_nodesVisited, modify. simpl.
      unfold bind at 1. unfold rand. simpl. fold rnd. fold index.
      unfold bind at 1.
      erewrite load_run; [|simpl; exact Hc|lia|exact Ev].
      unfold bind at 1. rewrite (createNode_run _ _).
      unfold_setters. simpl. unfold bind at 1.
      match goal with
      | |- context [makeRBST o fuel (Some p) first (index - 1) nni true ?M] =>
          destruct (IH first (index - 1) M) as
            (tl & rcl & il & Hrl & Hinl & Hsl & Hszl & Hal & Hpl);
          [simpl; exact Hc|lia|lia|lia|lia|]
      end.
      rewrite Hrl. simpl in *. unfold bind at 1.
      match goal with
      | |- context [makeRBST o fuel (Some p) (index + 1) last nni true ?M] =>
          destruct (IH (index + 1) last M) as
            (tr & rcr & ir & Hrr & Hinr & Hsr & Hszr & Har & Hpr);
          [simpl; exact Hc|lia|lia|lia|lia|]
      end.
      rewrite Hrr. simpl in *.
      rewrite adopt_run.
      exists (Node (brk m) v (1 + subtree_size tl + subtree_size tr) tl tr),
        rcr, (index :: il ++ ir).
      split; [|split; [|split; [|split; [|split]]]].
      * f_equal. f_equal; simpl; try lia.
        rewrite fmap_app, <- !app_assoc. reflexivity.
      * simpl. rewrite Hinl, Hinr. symmetry. apply slice_split; auto.
      * simpl. auto.
      * simpl. lia.
      * simpl. rewrite Hal, Har. f_equal.
        rewrite <- seq_app. f_equal.
      * rewrite Hpl, Hpr.
        replace (last - first + 1)
          with ((index - 1 - first + 1) + (1 + (last - (index + 1) + 1)))
          by lia.
        rewrite (seqZ_app first (index - 1 - first + 1)
                   (1 + (last - (index + 1) + 1))) by lia.
        rewrite (seqZ_cons (first + _)) by lia.
        rewrite Permutation_middle.
        apply Permutation_app_head. 
        replace (first + (index - 1 - first + 1)) with index by lia.
        apply perm_skip.
        replace (Z.succ index) with (index + 1) by lia.
        replace (Z.pred (1 + (last - (index + 1) + 1)))
          with (last - (index + 1) + 1) by lia.
        reflexivity.
Qed.

(** The first call of [makeRBST] (isAdded is false): the pivot is the
    designated index. *)
Lemma makeRBST_pinned p ks nni v :
  forall fuel first last m,
    cells m = Some <$> ks ->
    0 <= first -> last < Z.of_nat (length ks) ->
    first <= nni <= last ->
    ks !! Z.to_nat nni = Some v ->
    (Z.to_nat (last - first + 1) <= fuel)%nat ->
    exists tl tr rc idxs,
      let t := Node (brk m) v (last - first + 1) tl tr in
      makeRBST o fuel (Some p) first last nni false m =
        Normal t
          {| rand_calls := rc; drand48_calls := drand48_calls m;
             brk := brk m + count t; freed := freed m; cells := cells m;
             accesses := accesses m ++ (Rd <$> nni :: idxs);
             curIndex := curIndex m; newNodeIndex := newNodeIndex m;
             isAdded := isAdded m;
             nodesVisited := nodesVisited m + Z.of_nat (count t) |}
      /\ inorder t = slice ks first last
      /\ size_inv t
      /\ count t = Z.to_nat (last - first + 1)
      /\ addrs t = seq (brk m) (count t)
      /\ Permutation (nni :: idxs) (seqZ first (last - first + 1)).
Proof.
  intros fuel first last m Hc Hf Hl Hidx Ev Hfuel.
  destruct fuel as [|fuel]; [lia|].
  simpl. replace (last <? first) with false
    by (symmetry; apply Z.ltb_ge; lia).
  unfold bind at 1. unfold incr_nodesVisited, modify. simpl.
  unfold bind at 1.
  erewrite load_run; [|simpl; exact Hc|lia|exact Ev].
  unfold bind at 1. rewrite (createNode_run _ _).
  unfold_setters. simpl. unfold bind at 1.
  match goal with
  | |- context [makeRBST o fuel (Some p) first (nni - 1) nni true ?M] =>
      destruct (makeRBST_random p ks nni fuel first (nni - 1) M) as
        (tl & rcl & il & Hrl & Hinl & Hsl & Hszl & Hal & Hpl);
      [simpl; exact Hc|lia|lia|lia|lia|]
  end.
  rewrite Hrl. simpl in *. unfold bind at 1.
  match goal with
  | |- context [makeRBST o fuel (Some p) (nni + 1) last nni true ?M] =>
      destruct (makeRBST_random p ks nni fuel (nni + 1) last M) as
        (tr & rcr & ir & Hrr & Hinr & Hsr & Hszr & Har & Hpr);
      [simpl; exact Hc|lia|lia|lia|lia|]
  end.
  rewrite Hrr. simpl in *.
  rewrite adopt_run.
  assert (Hcl : count tl = Z.to_nat (nni - 1 - first + 1)).
  { rewrite <- inorder_length, Hinl. apply slice_length; lia. }
  assert (Hcr : count tr = Z.to_nat (last - (nni + 1) + 1)).
  { rewrite <- inorder_length, Hinr. apply slice_length; lia. }
  replace (1 + subtree_size tl + subtree_size tr) with (last - first + 1)
    by lia.
  exists tl, tr, rcr, (il ++ ir).
  split; [|split; [|split; [|split; [|split]]]].
  - f_equal. f_equal; simpl; try lia.
    rewrite fmap_app, <- !app_assoc. reflexivity.
  - simpl. rewrite Hinl, Hinr. symmetry. apply slice_split; auto.
  - simpl. split; [lia|auto].
  - simpl. lia.
  - simpl. rewrite Hal, Har. f_equal.
    rewrite <- seq_app. f_equal.
  - rewrite Hpl, Hpr.
    replace (last - first + 1)
      with ((nni - 1 - first + 1) + (1 + (last - (nni + 1) + 1))) by lia.
    rewrite (seqZ_app first (nni - 1 - first + 1)
               (1 + (last - (nni + 1) + 1))) by lia.
    rewrite (seqZ_cons (first + _)) by lia.
    rewrite Permutation_middle.
    apply Permutation_app_head.
    replace (first + (nni - 1 - first + 1)) with nni by lia.
    apply perm_skip.
    replace (Z.succ nni) with (nni + 1) by lia.
    replace (Z.pred (1 + (last - (nni + 1) + 1)))
      with (last - (nni + 1) + 1) by lia.
    reflexivity.
Qed.

(** A call that draws its pivot never looks at the designated index. *)
Lemma makeRBST_unpinned p fuel :
  forall first last i j m,
    makeRBST o fuel p first last i true m =
    makeRBST o fuel p first last j true m.
Proof.
  induction fuel as [|fuel IH]; intros first last i j m; simpl.
  - reflexivity.
  - destruct (last <? first); [reflexivity|].
    unfold bind.
    destruct (incr_nodesVisited m) as [[] m1| | |]; try reflexivity.
    destruct (rand o m1) as [rnd m2| | |]; try reflexivity.
    destruct (load p _ m2) as [k m3| | |]; try reflexivity.
    destruct (createNode o k m3) as [nn m4| | |]; try reflexivity.
    rewrite (IH _ _ i j).
    destruct (makeRBST o fuel p _ _ j true m4) as [l m5| | |];
      try reflexivity.
    rewrite (IH _ _ i j). reflexivity.
Qed.

Arguments makeRBST : simpl never.
Arguments flattenRBST : simpl never.

Lemma size_of_run t m :
  t <> NULL -> size_of t m = Normal (subtree_size t) m.
Proof. destruct t; [congruence|reflexivity]. Qed.

(** [reconstructRBST] on a subtree whose root stores its number of nodes. *)
Lemma reconstructRBST_run t a x sz0 l0 r0 m :
  t <> NULL ->
  subtree_size t = Z.of_nat (count t) ->
  exists tl tr rc idxs b,
    reconstructRBST o t (Node a x sz0 l0 r0) m =
      Normal (Node (S (brk m)) x (Z.of_nat (count t) + 1) tl tr)
        {| rand_calls := rc; drand48_calls := drand48_calls m;
           brk := S (brk m) + S (count t);
           freed := freed m ++ postorder t ++ [a; brk m];
           cells := [];
           accesses := accesses m ++
                       (Wr <$> seqZ 0 (Z.of_nat (count t) + 1)) ++
                       (Rd <$> Z.of_nat (rank x (inorder t)) :: idxs);
           curIndex := Z.of_nat (count t) + 1;
           newNodeIndex := Some (Z.of_nat (rank x (inorder t)));
           isAdded := b;
           nodesVisited := nodesVisited m + Z.of_nat (count t) +
                           (Z.of_nat (count t) + 1) |}
    /\ inorder tl ++ x :: inorder tr = place x (inorder t)
    /\ size_inv (Node (S (brk m)) x (Z.of_nat (count t) + 1) tl tr)
    /\ (count tl + count tr = count t)%nat
    /\ S (brk m) :: addrs tl ++ addrs tr = seq (S (brk m)) (S (count t))
    /\ Permutation (Z.of_nat (rank x (inorder t)) :: idxs)
                   (seqZ 0 (Z.of_nat (count t) + 1)).
Proof.
  intros Hnn Hsz.
  pose proof (inorder_length t) as Hks.
  unfold reconstructRBST. unfold bind at 1.
  rewrite (size_of_run t m Hnn), Hsz.
  unfold bind at 1. unfold malloc_ints, bind, malloc, modify, ret.
  rewrite Ho. unfold_setters. cbn [brk cells accesses freed rand_calls
    drand48_calls curIndex newNodeIndex isAdded nodesVisited].
  destruct (traversal_place x (inorder t) None) as [b Hb].
  rewrite Hks in Hb.
  replace (Z.to_nat (Z.of_nat (count t) + 1)) with (S (count t)) by lia.
  erewrite (flattenRBST_run (brk m) a x sz0 l0 r0 _ t _ [] (S (count t)));
    [|reflexivity|reflexivity|cbn; lia|cbn; lia
     |exact Hb].
  cbn.
  rewrite place_length, Hks, Nat.sub_diag. cbn. rewrite app_nil_r.
  unfold_setters. cbn.
  match goal with
  | |- context [makeRBST o ?F (Some ?P) 0 ?L ?I false ?M] =>
      destruct (makeRBST_pinned P (place x (inorder t)) I x F 0 L M) as
        (tl & tr & rc & idxs & Hrun & Hin & Hsi & Hcnt & Haddr & Hperm);
      [reflexivity|lia|rewrite place_length; lia
      |pose proof (rank_le x (inorder t)); lia
      |rewrite Nat2Z.id; apply place_lookup|lia|]
  end.
  cbn in Hrun, Hin, Hsi, Hcnt, Haddr.
  replace (Z.of_nat (count t) + 1 - 1 - 0 + 1) with (Z.of_nat (count t) + 1)
    in * by lia.
  rewrite Hrun. cbn.
  exists tl, tr, rc, idxs, b.
  split; [|split; [|split; [|split; [|split]]]].
  - f_equal. f_equal; try lia.
    + rewrite <- !app_assoc. reflexivity.
    + rewrite <- !app_assoc.
      replace (Z.of_nat (S (count t)) - Z.of_nat 0)
        with (Z.of_nat (count t) + 1) by lia.
      reflexivity.
  - rewrite Hin. pose proof (place_length x (inorder t)) as Hpl.
    replace (Z.of_nat (count t) + 1 - 1)
      with (Z.of_nat (length (place x (inorder t))) - 1) by lia.
    apply slice_all.
  - exact Hsi.
  - lia.
  - rewrite Haddr. f_equal. f_equal. lia.
  - rewrite Hperm. replace (Z.of_nat (count t) + 1 - 1 - 0 + 1)
      with (Z.of_nat (count t) + 1) by lia. reflexivity.
Qed.

(** ** Trees: sizes, order, addresses *)

Lemma size_inv_count t : size_inv t -> subtree_size t = Z.of_nat (count t).
Proof.
  induction t as [|a k s l IHl r IHr]; simpl; [reflexivity|].
  intros (Hs & Hl & Hr). rewrite Hs, IHl, IHr by assumption. lia.
Qed.

Lemma ordered_sorted t : ordered t <-> StronglySorted Z.le (inorder t).
Proof.
  induction t as [|a k s l IHl r IHr]; simpl.
  - split; [constructor|trivial].
  - split.
    + intros (Hl & Hr & Ol & Or).
      apply StronglySorted_app_2.
      * intros x1 x2 H1 H2. rewrite Forall_forall in Hl, Hr.
        apply elem_of_cons in H2 as [->|H2]; [auto|].
        specialize (Hl _ H1). specialize (Hr _ H2). lia.
      * now apply IHl.
      * constructor; [now apply IHr|exact Hr].
    + intros H.
      pose proof (StronglySorted_app_1_l _ _ _ H) as H1.
      pose proof (StronglySorted_app_1_r _ _ _ H) as H2.
      inversion H2 as [|? ? H3 H4]; subst.
      repeat split; [| exact H4 | now apply IHl | now apply IHr].
      rewrite Forall_forall. intros y Hy.
      eapply (StronglySorted_app_1_elem_of _ _ _ _ _ H); [exact Hy|].
      apply elem_of_cons. now left.
Qed.

Lemma bst_ordering_ordered t : bst_ordering t -> ordered t.
Proof.
  induction t as [|a k s l IHl r IHr]; simpl; [trivial|].
  intros (Hl & Hr & Ol & Or). repeat split; auto.
  eapply Forall_impl; [exact Hl|]. simpl. intros; lia.
Qed.

(** With pairwise distinct keys the two orderings coincide. *)
Lemma ordered_distinct t : ordered t -> NoDup (inorder t) -> bst_ordering t.
Proof.
  induction t as [|a k s l IHl r IHr]; simpl; [trivial|].
  intros (Hl & Hr & Ol & Or) Hnd.
  apply NoDup_app in Hnd as (Hnl & Hdis & Hnr).
  apply NoDup_cons in Hnr as (Hk & Hnr).
  repeat split; auto.
  rewrite Forall_forall in *. intros y Hy.
  specialize (Hl _ Hy). specialize (Hdis _ Hy).
  assert (y <> k) by (intros ->; apply Hdis; apply elem_of_cons; now left).
  lia.
Qed.

Lemma postorder_perm t : Permutation (postorder t) (addrs t).
Proof.
  induction t as [|a k s l IHl r IHr]; simpl; [reflexivity|].
  rewrite IHl, IHr, app_assoc. symmetry. apply Permutation_cons_append.
Qed.

Lemma place_app_lt x l1 k l2 :
  x < k -> place x (l1 ++ k :: l2) = place x l1 ++ k :: l2.
Proof.
  intros H. induction l1 as [|y l1 IH]; simpl.
  - replace (x <? k) with true by (symmetry; apply Z.ltb_lt; lia).
    reflexivity.
  - destruct (x <? y); [reflexivity|]. now rewrite IH.
Qed.

Lemma place_app_ge x l1 k l2 :
  Forall (fun y => y <= k) l1 -> k <= x ->
  place x (l1 ++ k :: l2) = l1 ++ k :: place x l2.
Proof.
  intros Hl Hk. rewrite place_app_r.
  - simpl. replace (x <? k) with false by (symmetry; apply Z.ltb_ge; lia).
    reflexivity.
  - eapply Forall_impl; [exact Hl|]. simpl. intros; lia.
Qed.

(** Addresses when one child [L] of a node is replaced by [L']: every new
    address comes from the new node [a], from [L], or is fresh. *)
Lemma addrs_replace (a self lo hi : nat) (L L' R : list nat) :
  Forall (fun b => b ∈ a :: L \/ (lo <= b < hi)%nat) L' ->
  Forall (fun b => b ∈ a :: self :: L ++ R \/ (lo <= b < hi)%nat)
         (self :: L' ++ R)
  /\ Forall (fun b => b ∈ a :: self :: R ++ L \/ (lo <= b < hi)%nat)
            (self :: R ++ L').
Proof.
  intros H. rewrite Forall_forall in H.
  split; apply Forall_forall; intros b Hb;
    rewrite elem_of_cons, elem_of_app in Hb;
    rewrite !elem_of_cons, elem_of_app;
    destruct Hb as [->|[Hb|Hb]]; auto;
    destruct (H _ Hb) as [Hc|Hc]; auto;
    rewrite elem_of_cons in Hc; destruct Hc as [->|Hc]; auto.
Qed.

Lemma nodup_replace (a self lo hi : nat) (L L' R : list nat) :
  Forall (fun b => b ∈ a :: L \/ (lo <= b < hi)%nat) L' ->
  NoDup L' ->
  NoDup (a :: self :: L ++ R) ->
  Forall (fun b => (b < lo)%nat) (a :: self :: L ++ R) ->
  NoDup (self :: L' ++ R) /\ NoDup (self :: R ++ L').
Proof.
  intros H HL' Hn Hlt.
  rewrite Forall_forall in H, Hlt.
  apply NoDup_cons in Hn as (Ha & Hn).
  apply NoDup_cons in Hn as (Hself & Hn).
  apply NoDup_app in Hn as (HnL & Hdis & HnR).
  rewrite elem_of_cons, elem_of_app in Ha.
  rewrite elem_of_app in Hself.
  assert (Hold : forall b, b ∈ a :: self :: L ++ R -> (b < lo)%nat)
    by exact Hlt.
  assert (HselfL' : self ∉ L').
  { intros Hin. destruct (H _ Hin) as [Hc|Hc].
    - rewrite elem_of_cons in Hc. destruct Hc as [->|Hc]; tauto.
    - assert (self < lo)%nat; [|lia].
      apply Hold. rewrite !elem_of_cons. auto. }
  assert (HL'R : forall b, b ∈ L' -> b ∉ R).
  { intros b Hb HbR. destruct (H _ Hb) as [Hc|Hc].
    - rewrite elem_of_cons in Hc. destruct Hc as [->|Hc]; [tauto|].
      exact (Hdis _ Hc HbR).
    - assert (b < lo)%nat; [|lia].
      apply Hold. rewrite !elem_of_cons, elem_of_app. auto. }
  split; apply NoDup_cons; split.
  - rewrite elem_of_app. tauto.
  - apply NoDup_app. auto.
  - rewrite elem_of_app. tauto.
  - apply NoDup_app. repeat split; auto.
    intros b HbR HbL'. exact (HL'R _ HbL' HbR).
Qed.

Lemma nodup_replace_r (a self lo hi : nat) (L L' R : list nat) :
  Forall (fun b => b ∈ a :: L \/ (lo <= b < hi)%nat) L' ->
  NoDup L' ->
  NoDup (a :: self :: R ++ L) ->
  Forall (fun b => (b < lo)%nat) (a :: self :: R ++ L) ->
  NoDup (self :: R ++ L').
Proof.
  intros H HL' Hn Hlt.
  apply (nodup_replace a self lo hi L L' R H HL').
  - now rewrite (Permutation_app_comm L R).
  - now rewrite (Permutation_app_comm L R).
Qed.

(** Released and live addresses when a subtree is rebuilt, or when one
    child of a node is replaced. *)
Lemma ledger_rebuild (F P A Sq : list nat) (a b : nat) :
  Permutation P A ->
  Permutation ((F ++ P ++ [a; b]) ++ Sq) (F ++ a :: A ++ b :: Sq).
Proof. intros ->. solve_Permutation. Qed.

Lemma ledger_left (F' L' F L R Sq : list nat) (a self : nat) :
  Permutation (F' ++ L') (F ++ a :: L ++ Sq) ->
  Permutation (F' ++ self :: L' ++ R) (F ++ a :: (self :: L ++ R) ++ Sq).
Proof.
  intros H. transitivity (self :: (F' ++ L') ++ R); [solve_Permutation|].
  rewrite H. solve_Permutation.
Qed.

Lemma ledger_right (F' R' F L R Sq : list nat) (a self : nat) :
  Permutation (F' ++ R') (F ++ a :: R ++ Sq) ->
  Permutation (F' ++ self :: L ++ R') (F ++ a :: (self :: L ++ R) ++ Sq).
Proof.
  intros H. transitivity (self :: L ++ (F' ++ R')); [solve_Permutation|].
  rewrite H. solve_Permutation.
Qed.

Lemma drand48_run m :
  drand48 o m =
    Normal (drand48_value o (drand48_calls m))
           (with_drand48_calls (S (drand48_calls m)) m).
Proof. reflexivity. Qed.

Arguments reconstructRBST : simpl never.

(** One call of [insertRBSTHelper] with a fresh node for the key [x]. *)
Lemma insertRBSTHelper_run a x :
  forall t m,
    size_inv t ->
    exists t' m',
      insertRBSTHelper o t (Node a x 1 NULL NULL) m = Normal t' m'
      /\ (ordered t -> inorder t' = place x (inorder t))
      /\ size_inv t'
      /\ count t' = S (count t)
      /\ nodesVisited m' =
           nodesVisited m + Z.of_nat (descended o x t (drand48_calls m)) +
           match rebuilt o x t (drand48_calls m) with
           | None => 0
           | Some c => Z.of_nat (count c) + (Z.of_nat (count c) + 1)
           end
      /\ (brk m <= brk m')%nat
      /\ Forall (fun b => b ∈ a :: addrs t \/ (brk m <= b < brk m')%nat)
                (addrs t')
      /\ (NoDup (a :: addrs t) ->
          Forall (fun b => (b < brk m)%nat) (a :: addrs t) ->
          NoDup (addrs t'))
      /\ Permutation (freed m' ++ addrs t')
           (freed m ++ a :: addrs t ++ seq (brk m) (brk m' - brk m)).
Proof.
  induction t as [|self key sz l IHl r IHr]; intros m Hsi.
  - exists (Node a x 1 NULL NULL), m. simpl.
    repeat split; auto; try lia; [repeat constructor|].
    rewrite Nat.sub_diag. reflexivity.
  - cbn [insertRBSTHelper]. unfold bind at 1.
    unfold incr_nodesVisited, modify.
    unfold bind at 1. rewrite drand48_run. unfold_setters.
    cbn [brk cells accesses freed rand_calls drand48_calls curIndex
         newNodeIndex isAdded nodesVisited descended rebuilt].
    destruct (below_inverse (drand48_value o (drand48_calls m)) sz) eqn:Eb.
    + match goal with
      | |- context [reconstructRBST o ?T ?N ?M] =>
          destruct (reconstructRBST_run T a x 1 NULL NULL M) as
            (tl & tr & rc & idxs & b & Hrun & Hin & Hsz & Hcnt & Haddr & _);
          [discriminate|apply (size_inv_count T Hsi)|]
      end.
      rewrite Hrun. clear Hrun.
      eexists _, _. split; [reflexivity|].
      cbn [brk nodesVisited freed] in *.
      split; [intros _; exact Hin|].
      split; [exact Hsz|].
      split; [cbn [count] in *; lia|].
      split; [lia|].
      split; [lia|].
      cbn [addrs]. rewrite Haddr. split; [|split].
      * apply Forall_forall. intros b' Hb'. right.
        apply elem_of_seq in Hb'. lia.
      * intros _ _. apply NoDup_seq.
      * replace (S (brk m) + S (count (Node self key sz l r)) - brk m)%nat
          with (S (S (count (Node self key sz l r)))) by lia.
        apply ledger_rebuild, postorder_perm.
    + unfold bind at 1. cbn [key_of ret].
      pose proof Hsi as (Hsz & Hsl & Hsr).
      destruct (x <? key) eqn:Ex.
      * unfold bind at 1.
        match goal with
        | |- context [insertRBSTHelper o l _ ?M] =>
            destruct (IHl M Hsl) as
              (l' & m' & Hrun & Hin & Hsz' & Hcnt & Hnv & Hbrk & Hfa & Hnd
               & Hpm)
        end.
        rewrite Hrun. clear Hrun.
        cbn [brk nodesVisited drand48_calls freed] in *.
        exists (Node self key (sz + 1) l' r), m'.
        split; [reflexivity|].
        split; [|split; [|split; [|split; [|split; [|split; [|split]]]]]].
        -- intros (Hl & Hr & Ol & Or). cbn [inorder].
           rewrite (Hin Ol). symmetry. apply place_app_lt. lia.
        -- cbn [size_inv]. repeat split; auto.
           rewrite (size_inv_count l' Hsz'), Hcnt, Hsz.
           rewrite (size_inv_count l Hsl). lia.
        -- cbn [count]. lia.
        -- lia.
        -- exact Hbrk.
        -- cbn [addrs]. apply (addrs_replace a self _ _ _ _ _ Hfa).
        -- cbn [addrs]. intros Hn Hlt.
           assert (Hn' : NoDup (addrs l')).
           { apply Hnd.
             - pose proof Hn as Hn0.
               apply NoDup_cons in Hn0 as (Ha & Hn0).
               apply NoDup_cons in Hn0 as (_ & Hn0).
               apply NoDup_app in Hn0 as (Hn0 & _).
               apply NoDup_cons. split; [|exact Hn0].
               rewrite elem_of_cons, elem_of_app in Ha. tauto.
             - rewrite Forall_forall in *. intros b' Hb'. apply Hlt.
               rewrite !elem_of_cons, elem_of_app.
               rewrite elem_of_cons in Hb'. tauto. }
           apply (nodup_replace a self _ _ _ _ _ Hfa Hn' Hn Hlt).
        -- cbn [addrs]. apply ledger_left, Hpm.
      * unfold bind at 1.
        match goal with
        | |- context [insertRBSTHelper o r _ ?M] =>
            destruct (IHr M Hsr) as
              (r' & m' & Hrun & Hin & Hsz' & Hcnt & Hnv & Hbrk & Hfa & Hnd
               & Hpm)
        end.
        rewrite Hrun. clear Hrun.
        cbn [brk nodesVisited drand48_calls freed] in *.
        exists (Node self key (sz + 1) l r'), m'.
        split; [reflexivity|].
        split; [|split; [|split; [|split; [|split; [|split; [|split]]]]]].
        -- intros (Hl & Hr & Ol & Or). cbn [inorder].
           rewrite (Hin Or). symmetry. apply place_app_ge; [exact Hl|lia].
        -- cbn [size_inv]. repeat split; auto.
           rewrite (size_inv_count r' Hsz'), Hcnt, Hsz.
           rewrite (size_inv_count r Hsr). lia.
        -- cbn [count]. lia.
        -- lia.
        -- exact Hbrk.
        -- cbn [addrs]. apply (addrs_replace a self _ _ _ _ _ Hfa).
        -- cbn [addrs]. intros Hn Hlt.
           assert (Hn' : NoDup (addrs r')).
           { apply Hnd.
             - pose proof Hn as Hn0.
               apply NoDup_cons in Hn0 as (Ha & Hn0).
               apply NoDup_cons in Hn0 as (_ & Hn0).
               apply NoDup_app in Hn0 as (_ & _ & Hn0).
               apply NoDup_cons. split; [|exact Hn0].
               rewrite elem_of_cons, elem_of_app in Ha. tauto.
             - rewrite Forall_forall in *. intros b' Hb'. apply Hlt.
               rewrite !elem_of_cons, elem_of_app.
               rewrite elem_of_cons in Hb'. tauto. }
           apply (nodup_replace_r a self _ _ _ _ _ Hfa Hn' Hn Hlt).
        -- cbn [addrs]. apply ledger_right, Hpm.
Qed.

Arguments insertRBSTHelper : simpl never.

Lemma insertRBST_run bst key m :
  size_inv (root bst) ->
  exists bst' m',
    insertRBST o bst key m =
      Normal (work o key (root bst) (drand48_calls m), bst') m'
    /\ rbst_self bst' = rbst_self bst
    /\ size_inv (root bst')
    /\ count (root bst') = S (count (root bst))
    /\ (ordered (root bst) ->
        inorder (root bst') = place key (inorder (root bst)))
    /\ (NoDup (addrs (root bst)) ->
        Forall (fun b => (b < brk m)%nat) (addrs (root bst)) ->
        NoDup (addrs (root bst')) /\
        Forall (fun b => (b < brk m')%nat) (addrs (root bst')))
    /\ (brk m <= brk m')%nat
    /\ Permutation (freed m' ++ addrs (root bst'))
         (freed m ++ addrs (root bst) ++ seq (brk m) (brk m' - brk m)).
Proof.
  intros Hsi. unfold insertRBST, work.
  unfold bind at 1. unfold modify at 1.
  unfold bind at 1. rewrite (createNode_run _ _).
  unfold bind at 1. unfold incr_nodesVisited, modify at 1.
  unfold_setters.
  cbn [brk cells accesses freed rand_calls drand48_calls curIndex
       newNodeIndex isAdded nodesVisited].
  destruct (root bst) as [|self k sz l r] eqn:Er.
  - eexists _, _. split; [reflexivity|]. cbn.
    repeat split; auto; [apply NoDup_singleton|].
    replace (S (brk m) - brk m)%nat with 1%nat by lia. reflexivity.
  - rewrite <- Er in *. unfold bind at 1.
    match goal with
    | |- context [insertRBSTHelper o _ _ ?M] =>
        destruct (insertRBSTHelper_run (brk m) key (root bst) M Hsi) as
          (t' & m' & Hrun & Hin & Hsz' & Hcnt & Hnv & Hbrk & Hfa & Hnd & Hpm)
    end.
    rewrite Hrun. clear Hrun.
    cbn [brk nodesVisited drand48_calls freed] in *.
    eexists _, _. split.
    { unfold bind, get, ret. rewrite Hnv. reflexivity. }
    cbn [rbst_self root].
    assert (Hledger : Permutation (freed m' ++ addrs t')
              (freed m ++ addrs (root bst) ++ seq (brk m) (brk m' - brk m))).
    { rewrite Hpm.
      replace (brk m' - brk m)%nat with (S (brk m' - S (brk m))) by lia.
      cbn [seq]. solve_Permutation. }
    repeat split; auto; try lia.
    + apply Hnd.
      * apply NoDup_cons. split; [|assumption].
        intros Hin'. rewrite Forall_forall in H0.
        specialize (H0 _ Hin'). lia.
      * constructor; [lia|].
        eapply Forall_impl; [eassumption|]. cbn. intros; lia.
    + rewrite Forall_forall in *. intros b Hb.
      destruct (Hfa _ Hb) as [Hc|Hc]; [|lia].
      apply elem_of_cons in Hc as [->|Hc]; [lia|].
      specialize (H0 _ Hc). lia.
Qed.

Lemma freeRBSTHelper_run t m :
  freeRBSTHelper t m =
    Normal tt
      (with_nodesVisited (nodesVisited m + Z.of_nat (count t))
         (with_freed (freed m ++ postorder t) m)).
Proof.
  revert m. induction t as [|a k s l IHl r IHr]; intros m.
  - cbn. unfold ret. destruct m; cbn. unfold_setters. cbn.
    f_equal. f_equal; try lia. now rewrite app_nil_r.
  - cbn [freeRBSTHelper]. unfold bind at 1. unfold incr_nodesVisited, modify.
    unfold bind at 1. rewrite IHl. unfold bind at 1. rewrite IHr.
    unfold free, modify. unfold_setters. cbn. f_equal. f_equal; try lia.
    now rewrite <- !app_assoc.
Qed.

Lemma freeRBST_run bst m :
  freeRBST bst m =
    Normal (Z.of_nat (count (root bst)))
      (with_nodesVisited (Z.of_nat (count (root bst)))
         (with_freed (freed m ++ postorder (root bst) ++ [rbst_self bst]) m)).
Proof.
  unfold freeRBST. unfold bind at 1. unfold modify at 1.
  unfold bind at 1. rewrite freeRBSTHelper_run.
  unfold bind, free, modify, get. unfold_setters. cbn.
  now rewrite <- !app_assoc.
Qed.

Lemma placed_perm keys init : Permutation (placed keys init) (init ++ keys).
Proof.
  revert init. induction keys as [|k keys IH]; intros init; cbn.
  - now rewrite app_nil_r.
  - unfold placed in IH. rewrite IH, place_perm. cbn.
    apply Permutation_middle.
Qed.

Lemma placed_sorted keys init :
  StronglySorted Z.le init -> StronglySorted Z.le (placed keys init).
Proof.
  revert init. induction keys as [|k keys IH]; intros init H; cbn; auto.
  apply IH. now apply place_sorted.
Qed.

Lemma insertKeys_run keys :
  forall bst m total,
    wf m (root bst) ->
    exists n bst' m',
      insertKeys o bst keys total m = Normal (n, bst') m'
      /\ rbst_self bst' = rbst_self bst
      /\ wf m' (root bst')
      /\ inorder (root bst') = placed keys (inorder (root bst))
      /\ count (root bst') = (count (root bst) + length keys)%nat
      /\ (brk m <= brk m')%nat
      /\ Permutation (freed m' ++ addrs (root bst'))
           (freed m ++ addrs (root bst) ++ seq (brk m) (brk m' - brk m)).
Proof.
  induction keys as [|k keys IH]; intros bst m total Hwf.
  - exists total, bst, m. cbn. repeat split; try apply Hwf; try lia.
    rewrite Nat.sub_diag. cbn. now rewrite app_nil_r.
  - destruct Hwf as (Hsi & Hord & Hnd & Hlt).
    destruct (insertRBST_run bst k m Hsi) as
      (bst1 & m1 & Hrun & Hself & Hsi1 & Hcnt1 & Hin1 & Haddr1 & Hb1 & Hp1).
    destruct (Haddr1 Hnd Hlt) as [Hnd1 Hlt1].
    assert (Hwf1 : wf m1 (root bst1)).
    { repeat split; auto. apply ordered_sorted. rewrite (Hin1 Hord).
      apply place_sorted. now apply ordered_sorted. }
    cbn [insertKeys]. unfold bind at 1. rewrite Hrun. cbn [fst snd].
    destruct (IH bst1 m1 (total + work o k (root bst) (drand48_calls m)) Hwf1)
      as (n & bst' & m' & Hrun' & Hself' & Hwf' & Hin' & Hcnt' & Hb' & Hp').
    exists n, bst', m'. rewrite Hrun'.
    repeat split; try apply Hwf'; try congruence.
    + rewrite Hin', (Hin1 Hord). reflexivity.
    + rewrite Hcnt', Hcnt1. cbn. lia.
    + lia.
    + rewrite Hp', app_assoc, Hp1.
      replace (brk m' - brk m)%nat
        with ((brk m1 - brk m) + (brk m' - brk m1))%nat by lia.
      rewrite seq_app.
      replace (brk m + (brk m1 - brk m))%nat with (brk m1) by lia.
      rewrite <- !app_assoc. reflexivity.
Qed.

Lemma initRBST_run m :
  initRBST o m =
    Normal {| rbst_self := brk m; root := NULL |} (with_brk (S (brk m)) m).
Proof. unfold initRBST, bind, malloc. now rewrite Ho. Qed.

End Allocations_succeed.

Lemma rank_all_le x l : Forall (fun y => y <= x) l -> rank x l = length l.
Proof.
  induction 1 as [|y l Hy _ IH]; simpl; [reflexivity|].
  destruct (x <? y) eqn:E; [lia|]. now rewrite IH.
Qed.

(** Keys behind the position that [place] chooses, in a sorted list. *)
Lemma place_behind x l :
  StronglySorted Z.le l -> Forall (fun y => x < y) (drop (rank x l) l).
Proof.
  induction 1 as [|y l Hs IH Hall]; simpl; [constructor|].
  destruct (x <? y) eqn:E; simpl; [|exact IH].
  constructor; [lia|].
  eapply Forall_impl; [exact Hall|]. simpl. intros; lia.
Qed.

Lemma always_rebuild_alloc : alloc_ok always_rebuild.
Proof. intros i. reflexivity. Defined.

Lemma never_rebuild_alloc : alloc_ok never_rebuild.
Proof. intros i. reflexivity. Defined.

(** ** The properties of the specification *)

(** C1. For any sequence of insert calls starting from an empty tree, an
    in-order traversal of the resulting tree yields exactly the multiset
    of the inserted keys, in non-decreasing order. *)
Theorem insertions_inorder_sorted o keys m :
  alloc_ok o ->
  exists n bst m',
    (do bst <- initRBST o; insertKeys o bst keys 0) m = Normal (n, bst) m'
    /\ Sorted Z.le (inorder (root bst))
    /\ Permutation (inorder (root bst)) keys.
Proof.
  intros Ho. unfold bind at 1. rewrite (initRBST_run o Ho m).
  match goal with
  | |- context [insertKeys o ?B keys 0 ?M] =>
      destruct (insertKeys_run o Ho keys B M 0) as
        (n & bst & m' & Hrun & _ & Hwf & Hin & _)
  end.
  { repeat split; constructor. }
  exists n, bst, m'. split; [exact Hrun|]. rewrite Hin. cbn [root inorder].
  split.
  - apply StronglySorted_Sorted, placed_sorted. constructor.
  - apply (placed_perm keys []).
Qed.

Lemma insertions_inorder_sorted_witness :
  alloc_ok always_rebuild /\
  exists n bst m',
    (do bst <- initRBST always_rebuild;
     insertKeys always_rebuild bst [5; 3; 8; 1; 4; 7; 9] 0) boot =
      Normal (n, bst) m'
    /\ Sorted Z.le (inorder (root bst))
    /\ Permutation (inorder (root bst)) [5; 3; 8; 1; 4; 7; 9].
Proof.
  split; [exact always_rebuild_alloc|].
  apply (insertions_inorder_sorted always_rebuild [5; 3; 8; 1; 4; 7; 9] boot).
  intros i. reflexivity.
Defined.

(** C2, as the specification states it, fails: with equal keys a rebuild
    leaves a key equal to the root in the left subtree. Inserting 1 twice
    when the second insertion rebuilds at the root gives the root 1 (the
    new key, pinned) with the old 1 as its left child. *)
Lemma equal_key_in_left_subtree :
  exists n m',
    (do bst <- initRBST always_rebuild;
     insertKeys always_rebuild bst [1; 1] 0) boot =
      Normal (n, {| rbst_self := 0;
                    root := Node 4 1 2 (Node 5 1 1 NULL NULL) NULL |}) m'
    /\ ~ bst_ordering (Node 4 1 2 (Node 5 1 1 NULL NULL) NULL).
Proof.
  eexists _, _. split; [vm_compute; reflexivity|].
  simpl. intros (H & _). inversion H; subst. lia.
Qed.

(** C2, amended. After every completed insert call, for every Node, every
    key of its left subtree is less than or equal to the node's key and
    every key of its right subtree is greater than or equal to it; when
    the inserted keys are pairwise distinct, the keys of the left subtree
    are strictly less. *)
Theorem insertions_ordered o keys m :
  alloc_ok o ->
  exists n bst m',
    (do bst <- initRBST o; insertKeys o bst keys 0) m = Normal (n, bst) m'
    /\ ordered (root bst)
    /\ (NoDup keys -> bst_ordering (root bst)).
Proof.
  intros Ho. unfold bind at 1. rewrite (initRBST_run o Ho m).
  match goal with
  | |- context [insertKeys o ?B keys 0 ?M] =>
      destruct (insertKeys_run o Ho keys B M 0) as
        (n & bst & m' & Hrun & _ & Hwf & Hin & _)
  end.
  { repeat split; constructor. }
  exists n, bst, m'. split; [exact Hrun|].
  destruct Hwf as (_ & Hord & _). split; [exact Hord|].
  intros Hnd. apply ordered_distinct; [exact Hord|].
  rewrite Hin. cbn [root inorder].
  now rewrite (placed_perm keys []).
Qed.

Lemma insertions_ordered_witness :
  alloc_ok always_rebuild /\
  exists n bst m',
    (do bst <- initRBST always_rebuild;
     insertKeys always_rebuild bst [5; 3; 8; 1] 0) boot = Normal (n, bst) m'
    /\ ordered (root bst)
    /\ (NoDup [5; 3; 8; 1] -> bst_ordering (root bst)).
Proof.
  split; [exact always_rebuild_alloc|].
  apply (insertions_ordered always_rebuild [5; 3; 8; 1] boot).
  intros i. reflexivity.
Defined.

(** C3. After every completed insert, on any tree that satisfies the size
    invariant and whether or not a subtree is rebuilt, every Node
    satisfies size == 1 + size(left, default 0) + size(right, default 0);
    the tree that [initRBST] creates satisfies it too. *)
Theorem insert_keeps_size_invariant o bst key m :
  alloc_ok o ->
  size_inv (root bst) ->
  (exists n bst' m',
     insertRBST o bst key m = Normal (n, bst') m' /\ size_inv (root bst'))
  /\ (exists bst0 m0, initRBST o m = Normal bst0 m0 /\ size_inv (root bst0)).
Proof.
  intros Ho Hsi. split.
  - destruct (insertRBST_run o Ho bst key m Hsi) as
      (bst' & m' & Hrun & _ & Hsi' & _).
    eexists _, bst', m'. split; [exact Hrun|exact Hsi'].
  - rewrite (initRBST_run o Ho m). eexists _, _. split; [reflexivity|].
    exact I.
Qed.

Lemma insert_keeps_size_invariant_witness :
  alloc_ok always_rebuild /\
  size_inv (Node 1 5 2 (Node 2 3 1 NULL NULL) NULL) /\
  (exists n bst' m',
     insertRBST always_rebuild
       {| rbst_self := 0; root := Node 1 5 2 (Node 2 3 1 NULL NULL) NULL |}
       4 (with_brk 3 boot) = Normal (n, bst') m'
     /\ size_inv (root bst'))
  /\ (exists bst0 m0,
        initRBST always_rebuild (with_brk 3 boot) = Normal bst0 m0
        /\ size_inv (root bst0)).
Proof.
  split; [exact always_rebuild_alloc|].
  split; [simpl; repeat split; lia|].
  apply (insert_keeps_size_invariant always_rebuild
           {| rbst_self := 0;
              root := Node 1 5 2 (Node 2 3 1 NULL NULL) NULL |} 4
           (with_brk 3 boot)).
  - intros i. reflexivity.
  - simpl. repeat split; lia.
Defined.

(** C4. For every subtree of size s that satisfies the size and ordering
    invariants and every new key x, [flattenRBST], started as
    [reconstructRBST] starts it (s + 1 indeterminate cells, curIndex 0,
    isAddedArr false), fills the array with exactly s + 1 keys in ascending
    order: the keys of the subtree with x placed after every key that is
    less than or equal to x and before every greater key, and records the
    position of x; when no key is greater than x, x is the last of the
    s + 1 keys. *)
Theorem flatten_places_new_key p a x sz0 l0 r0 t m :
  size_inv t ->
  bst_ordering t ->
  cells m = replicate (Z.to_nat (subtree_size t + 1)) None ->
  curIndex m = 0 ->
  isAdded m = false ->
  exists pre post m',
    flattenRBST (Some p) (Node a x sz0 l0 r0) t (subtree_size t + 1) m =
      Normal tt m'
    /\ inorder t = pre ++ post
    /\ cells m' = Some <$> (pre ++ x :: post)
    /\ Z.of_nat (length (cells m')) = subtree_size t + 1
    /\ Forall (fun y => y <= x) pre
    /\ Forall (fun y => x < y) post
    /\ Sorted Z.le (pre ++ x :: post)
    /\ newNodeIndex m' = Some (Z.of_nat (length pre))
    /\ (Forall (fun y => y <= x) (inorder t) -> post = []).
Proof.
  intros Hsi Hbst Hc Hi Hadd.
  pose proof (inorder_length t) as Hks.
  pose proof (proj1 (ordered_sorted t) (bst_ordering_ordered t Hbst)) as Hs.
  destruct (traversal_place x (inorder t) (newNodeIndex m)) as [b Hb].
  rewrite Hks in Hb. rewrite <- Hadd in Hb.
  rewrite (size_inv_count t Hsi) in *.
  replace (Z.to_nat (Z.of_nat (count t) + 1)) with (S (count t)) in Hc
    by lia.
  erewrite (flattenRBST_run p a x sz0 l0 r0 _ t m [] (S (count t)));
    [|exact Hc|exact Hi|cbn; lia|rewrite Hadd; lia|exact Hb].
  cbn [fst snd].
  exists (take (rank x (inorder t)) (inorder t)),
    (drop (rank x (inorder t)) (inorder t)).
  eexists. split; [reflexivity|]. cbn [cells newNodeIndex].
  rewrite <- place_rank.
  split; [now rewrite take_drop|].
  split; [rewrite place_length, Hks, Nat.sub_diag; cbn;
          now rewrite app_nil_r|].
  split; [rewrite place_length, Hks, Nat.sub_diag; cbn;
          rewrite app_nil_r, length_fmap, place_length; lia|].
  split; [apply place_before|].
  split; [now apply place_behind|].
  split; [now apply StronglySorted_Sorted, place_sorted|].
  split.
  - rewrite length_take. pose proof (rank_le x (inorder t)).
    do 2 f_equal. lia.
  - intros Hall. rewrite (rank_all_le x _ Hall). apply drop_all.
Qed.

Lemma flatten_places_new_key_witness :
  size_inv (Node 1 5 3 (Node 2 3 1 NULL NULL) (Node 3 5 1 NULL NULL)) /\
  bst_ordering (Node 1 5 3 (Node 2 3 1 NULL NULL) (Node 3 5 1 NULL NULL)) /\
  exists pre post m',
    flattenRBST (Some 9%nat) (Node 4 5 1 NULL NULL)
      (Node 1 5 3 (Node 2 3 1 NULL NULL) (Node 3 5 1 NULL NULL)) (3 + 1)
      (with_array [None; None; None; None] [] boot) = Normal tt m'
    /\ [3; 5; 5] = pre ++ post
    /\ cells m' = Some <$> (pre ++ 5 :: post)
    /\ Z.of_nat (length (cells m')) = 3 + 1
    /\ Forall (fun y => y <= 5) pre
    /\ Forall (fun y => 5 < y) post
    /\ Sorted Z.le (pre ++ 5 :: post)
    /\ newNodeIndex m' = Some (Z.of_nat (length pre))
    /\ (Forall (fun y => y <= 5) [3; 5; 5] -> post = []).
Proof.
  assert (Hsi : size_inv
            (Node 1 5 3 (Node 2 3 1 NULL NULL) (Node 3 5 1 NULL NULL)))
    by (simpl; repeat split; lia).
  assert (Hbst : bst_ordering
            (Node 1 5 3 (Node 2 3 1 NULL NULL) (Node 3 5 1 NULL NULL)))
    by (simpl; repeat split; repeat constructor; lia).
  split; [exact Hsi|]. split; [exact Hbst|].
  apply (flatten_places_new_key 9 4 5 1 NULL NULL
           (Node 1 5 3 (Node 2 3 1 NULL NULL) (Node 3 5 1 NULL NULL))
           (with_array [None; None; None; None] [] boot) Hsi Hbst);
    reflexivity.
Defined.

(** C5. Whenever an insert triggers a flatten-and-rebuild at a subtree,
    the root of the rebuilt subtree holds the new key and the rebuilt
    subtree holds the former keys and the new one; the designated index is
    the pivot of the first call of [makeRBST] only: a call that draws its
    pivot (isAdded true) does not depend on the designated index. *)
Theorem rebuild_pins_new_key o t a x sz0 l0 r0 m :
  alloc_ok o ->
  t <> NULL ->
  size_inv t ->
  (exists self size tl tr m',
     reconstructRBST o t (Node a x sz0 l0 r0) m =
       Normal (Node self x size tl tr) m'
     /\ Permutation (inorder (Node self x size tl tr)) (x :: inorder t))
  /\ (forall fuel p first last i j m0,
        makeRBST o fuel p first last i true m0 =
        makeRBST o fuel p first last j true m0).
Proof.
  intros Ho Hnn Hsi. split.
  - destruct (reconstructRBST_run o Ho t a x sz0 l0 r0 m Hnn
                (size_inv_count t Hsi)) as
      (tl & tr & rc & idxs & b & Hrun & Hin & _).
    eexists _, _, tl, tr, _. split; [exact Hrun|].
    cbn [inorder]. rewrite Hin. apply place_perm.
  - intros fuel p. apply makeRBST_unpinned.
Qed.

Lemma rebuild_pins_new_key_witness :
  alloc_ok always_rebuild /\
  Node 1 5 2 (Node 2 3 1 NULL NULL) NULL <> NULL /\
  size_inv (Node 1 5 2 (Node 2 3 1 NULL NULL) NULL) /\
  (exists self size tl tr m',
     reconstructRBST always_rebuild (Node 1 5 2 (Node 2 3 1 NULL NULL) NULL)
       (Node 3 4 1 NULL NULL) (with_brk 4 boot) =
       Normal (Node self 4 size tl tr) m'
     /\ Permutation (inorder (Node self 4 size tl tr)) [4; 3; 5])
  /\ (forall fuel p first last i j m0,
        makeRBST always_rebuild fuel p first last i true m0 =
        makeRBST always_rebuild fuel p first last j true m0).
Proof.
  split; [exact always_rebuild_alloc|].
  split; [discriminate|].
  split; [simpl; repeat split; lia|].
  apply (rebuild_pins_new_key always_rebuild
           (Node 1 5 2 (Node 2 3 1 NULL NULL) NULL) 3 4 1 NULL NULL
           (with_brk 4 boot)).
  - intros i. reflexivity.
  - discriminate.
  - simpl. repeat split; lia.
Defined.

(** C6. After inserting n keys into a freshly created tree the tree has
    exactly n Nodes; [freeRBST] then returns n and passes to free the
    address of every Node exactly once (the addresses of the Nodes are
    pairwise distinct and the addresses released are a permutation of
    them), followed by the handle; when it returns, every block allocated
    since the tree was created has been released exactly once. [freeRBST]
    on an empty tree returns 0 and releases no Node (only the handle
    itself). *)
Theorem teardown_counts_nodes o keys m :
  alloc_ok o ->
  (exists total bst m1,
     (do bst <- initRBST o; insertKeys o bst keys 0) m =
       Normal (total, bst) m1
     /\ count (root bst) = length keys
     /\ NoDup (addrs (root bst))
     /\ exists released m2,
          freeRBST bst m1 = Normal (Z.of_nat (length keys)) m2
          /\ freed m2 = freed m1 ++ released ++ [rbst_self bst]
          /\ Permutation released (addrs (root bst))
          /\ length released = length keys
          /\ Permutation (freed m2)
               (freed m ++ seq (brk m) (brk m2 - brk m)))
  /\ (forall self m0,
        exists m2,
          freeRBST {| rbst_self := self; root := NULL |} m0 = Normal 0 m2
          /\ freed m2 = freed m0 ++ [self]).
Proof.
  intros Ho. split.
  - unfold bind at 1. rewrite (initRBST_run o Ho m).
    match goal with
    | |- context [insertKeys o ?B keys 0 ?M] =>
        destruct (insertKeys_run o Ho keys B M 0) as
          (n & bst & m' & Hrun & Hself & Hwf & _ & Hcnt & Hbrk & Hledger)
    end.
    { repeat split; constructor. }
    cbn [root count rbst_self brk freed addrs with_brk] in *.
    exists n, bst, m'. split; [exact Hrun|].
    destruct Hwf as (_ & _ & Hnd & _).
    split; [exact Hcnt|]. split; [exact Hnd|].
    rewrite freeRBST_run, Hcnt.
    exists (postorder (root bst)). eexists. split; [reflexivity|].
    cbn [freed brk with_freed with_nodesVisited].
    split; [reflexivity|]. split; [apply postorder_perm|].
    split.
    + rewrite (Permutation_length (postorder_perm (root bst))), addrs_length.
      exact Hcnt.
    + rewrite Hself, (postorder_perm (root bst)), app_assoc, Hledger.
      replace (brk m' - brk m)%nat with (S (brk m' - S (brk m))) by lia.
      cbn [seq app]. rewrite <- app_assoc. apply Permutation_app_head.
      symmetry. apply Permutation_cons_append.
  - intros self m0. rewrite freeRBST_run. eexists. split; reflexivity.
Qed.

Lemma teardown_counts_nodes_witness :
  alloc_ok always_rebuild /\
  (exists total bst m1,
     (do bst <- initRBST always_rebuild;
      insertKeys always_rebuild bst [5; 3; 8] 0) boot =
       Normal (total, bst) m1
     /\ count (root bst) = 3%nat
     /\ NoDup (addrs (root bst))
     /\ exists released m2,
          freeRBST bst m1 = Normal 3 m2
          /\ freed m2 = freed m1 ++ released ++ [rbst_self bst]
          /\ Permutation released (addrs (root bst))
          /\ length released = 3%nat
          /\ Permutation (freed m2) ([] ++ seq 0 (brk m2 - 0)))
  /\ (forall self m0,
        exists m2,
          freeRBST {| rbst_self := self; root := NULL |} m0 = Normal 0 m2
          /\ freed m2 = freed m0 ++ [self]).
Proof.
  split; [exact always_rebuild_alloc|].
  apply (teardown_counts_nodes always_rebuild [5; 3; 8] boot).
  intros i. reflexivity.
Defined.

(** C7, as the specification states it, fails: an insert into an empty
    tree descends through no Node and rebuilds none, yet returns 1. *)
Lemma counter_on_empty_tree :
  exists bst' m',
    insertRBST always_rebuild {| rbst_self := 0; root := NULL |} 42
      (with_brk 1 boot) = Normal (1, bst') m'
    /\ descended_or_rebuilt always_rebuild 42 NULL 0 = 0
    /\ 1 <> descended_or_rebuilt always_rebuild 42 NULL 0.
Proof.
  eexists _, _. split; [vm_compute; reflexivity|].
  split; [reflexivity|]. vm_compute. discriminate.
Qed.

(** C7, amended. Every insert call returns the number of times it
    incremented its counter: once for the Node created for the key, once
    for every Node at which the descent arrives (the root of a rebuilt
    subtree included) and, when a subtree of s Nodes is rebuilt, s times
    while it is flattened and s + 1 times while it is rebuilt. An insert
    into an empty tree returns 1. *)
Theorem insert_counter o bst key m :
  alloc_ok o ->
  size_inv (root bst) ->
  (exists bst' m',
     insertRBST o bst key m =
       Normal (1 + Z.of_nat (descended o key (root bst) (drand48_calls m)) +
               match rebuilt o key (root bst) (drand48_calls m) with
               | None => 0
               | Some c => Z.of_nat (count c) + (Z.of_nat (count c) + 1)
               end, bst') m')
  /\ (exists bst' m',
        insertRBST o {| rbst_self := rbst_self bst; root := NULL |} key m =
          Normal (1, bst') m').
Proof.
  intros Ho Hsi. split.
  - destruct (insertRBST_run o Ho bst key m Hsi) as (bst' & m' & Hrun & _).
    exists bst', m'. exact Hrun.
  - destruct (insertRBST_run o Ho
                {| rbst_self := rbst_self bst; root := NULL |} key m I) as (bst' & m' & Hrun & _).
    exists bst', m'. exact Hrun.
Qed.

Lemma insert_counter_witness :
  alloc_ok always_rebuild /\
  size_inv (Node 1 5 1 NULL NULL) /\
  (exists bst' m',
     insertRBST always_rebuild
       {| rbst_self := 0; root := Node 1 5 1 NULL NULL |} 7
       (with_brk 2 boot) = Normal (5, bst') m')
  /\ (exists bst' m',
        insertRBST always_rebuild {| rbst_self := 0; root := NULL |} 7
          (with_brk 2 boot) = Normal (1, bst') m').
Proof.
  split; [exact always_rebuild_alloc|].
  split; [simpl; repeat split; lia|].
  apply (insert_counter always_rebuild
           {| rbst_self := 0; root := Node 1 5 1 NULL NULL |} 7
           (with_brk 2 boot)).
  - intros i. reflexivity.
  - simpl. repeat split; lia.
Defined.

(** C9: the allocation of a Node is checked and its failure terminates the
    process with exit(0); the allocation of the array in [reconstructRBST]
    and the allocation of the handle in [initRBST] are used unchecked.
    When malloc returns NULL for the array (the fourth call of malloc
    below: handle, Node 1, Node 2, array), the first store of
    [flattenRBST] goes through the null pointer. *)
Theorem unchecked_allocations :
  createNode (exhausted_at 0) 7 boot = Exit 0
  /\ (do bst <- initRBST (exhausted_at 3);
      insertKeys (exhausted_at 3) bst [1; 2] 0) boot = Fault
  /\ initRBST (exhausted_at 0) boot = Fault.
Proof. repeat split; vm_compute; reflexivity. Qed.

(** Exhaustion while a Node is created ends the process, whatever the
    key and the state. *)
Lemma createNode_exhausted o key m :
  malloc_tape o (brk m) = false -> createNode o key m = Exit 0.
Proof. intros H. unfold createNode, bind, malloc. now rewrite H. Qed.

(** C10. During every flatten-and-rebuild of a subtree of size s whose
    size fields satisfy the size invariant, every access to the array uses
    an index of [0, s]: the slots 0, 1, ..., s are written once each, in
    this order, before any read; the index recorded for the new key is
    assigned, lies in [0, s] and is the first index read; the reads are at
    indices of [0, s] (each slot is read once). *)
Theorem rebuild_array_accesses o t a x sz0 l0 r0 m :
  alloc_ok o ->
  t <> NULL ->
  size_inv t ->
  exists t' m' idx reads,
    reconstructRBST o t (Node a x sz0 l0 r0) m = Normal t' m'
    /\ accesses m' =
         accesses m ++ (Wr <$> seqZ 0 (subtree_size t + 1)) ++
         (Rd <$> idx :: reads)
    /\ newNodeIndex m' = Some idx
    /\ 0 <= idx <= subtree_size t
    /\ Forall (fun i => 0 <= i <= subtree_size t) reads
    /\ Permutation (idx :: reads) (seqZ 0 (subtree_size t + 1)).
Proof.
  intros Ho Hnn Hsi.
  destruct (reconstructRBST_run o Ho t a x sz0 l0 r0 m Hnn
              (size_inv_count t Hsi)) as
    (tl & tr & rc & idxs & b & Hrun & _ & _ & _ & _ & Hperm).
  rewrite (size_inv_count t Hsi).
  eexists _, _, (Z.of_nat (rank x (inorder t))), idxs.
  split; [exact Hrun|]. cbn [accesses newNodeIndex].
  split; [reflexivity|]. split; [reflexivity|].
  assert (Hall : Forall (fun i => 0 <= i <= Z.of_nat (count t))
                   (Z.of_nat (rank x (inorder t)) :: idxs)).
  { rewrite Hperm. apply Forall_seqZ. intros; lia. }
  inversion Hall; subst. auto.
Qed.

Lemma rebuild_array_accesses_witness :
  alloc_ok always_rebuild /\
  Node 1 5 2 (Node 2 3 1 NULL NULL) NULL <> NULL /\
  size_inv (Node 1 5 2 (Node 2 3 1 NULL NULL) NULL) /\
  exists t' m' idx reads,
    reconstructRBST always_rebuild (Node 1 5 2 (Node 2 3 1 NULL NULL) NULL)
      (Node 3 4 1 NULL NULL) (with_brk 4 boot) = Normal t' m'
    /\ accesses m' = [] ++ (Wr <$> seqZ 0 (2 + 1)) ++ (Rd <$> idx :: reads)
    /\ newNodeIndex m' = Some idx
    /\ 0 <= idx <= 2
    /\ Forall (fun i => 0 <= i <= 2) reads
    /\ Permutation (idx :: reads) (seqZ 0 (2 + 1)).
Proof.
  split; [exact always_rebuild_alloc|].
  split; [discriminate|].
  split; [simpl; repeat split; lia|].
  apply (rebuild_array_accesses always_rebuild
           (Node 1 5 2 (Node 2 3 1 NULL NULL) NULL) 3 4 1 NULL NULL
           (with_brk 4 boot)).
  - intros i. reflexivity.
  - discriminate.
  - simpl. repeat split; lia.
Defined.

(** ** Scenarios of the specification *)

Example seven_keys_always_rebuild :
  observe always_rebuild [5; 3; 8; 1; 4; 7; 9] =
    Some ([1; 3; 4; 5; 7; 8; 9], 7%nat, 7).
Proof. vm_compute. reflexivity. Qed.

Example seven_keys_never_rebuild :
  observe never_rebuild [5; 3; 8; 1; 4; 7; 9] =
    Some ([1; 3; 4; 5; 7; 8; 9], 7%nat, 3).
Proof. vm_compute. reflexivity. Qed.

Example single_key :
  observe always_rebuild [42] = Some ([42], 1%nat, 1).
Proof. vm_compute. reflexivity. Qed.

Example equal_keys :
  observe always_rebuild [1; 1; 1] = Some ([1; 1; 1], 3%nat, 3).
Proof. vm_compute. reflexivity. Qed.

(** For one fixed tape the height is not logarithmic: rand() always 0 and
    every insertion rebuilding at the root, or no rebuild at all on sorted
    keys, give a path. *)
Example sorted_keys_never_rebuild :
  observe never_rebuild [1; 2; 3; 4; 5; 6; 7; 8] =
    Some ([1; 2; 3; 4; 5; 6; 7; 8], 8%nat, 8).
Proof. vm_compute. reflexivity. Qed.

Example teardown_of_three :
  (do bst <- initRBST never_rebuild;
   do r <- insertKeys never_rebuild bst [5; 3; 8] 0;
   freeRBST (snd r)) boot =
  Normal 3
    {| rand_calls := 0; drand48_calls := 2; brk := 4;
       freed := [2; 3; 1; 0]%nat; cells := []; accesses := [];
       curIndex := 0; newNodeIndex := None; isAdded := false;
       nodesVisited := 3 |}.
Proof. vm_compute. reflexivity. Qed.

(** ** Further properties of the code *)

Lemma height_range t :
  0 <= height t <= Z.of_nat (count t) /\ Z.of_nat (count t) < 2 ^ height t.
Proof.
  induction t as [|a k s l IHl r IHr].
  - simpl. lia.
  - destruct IHl as ((Hl0 & Hl1) & Hl2).
    destruct IHr as ((Hr0 & Hr1) & Hr2).
    cbn [height count].
    destruct (height r <? height l) eqn:E;
      [apply Z.ltb_lt in E|apply Z.ltb_ge in E].
    + split; [lia|].
      rewrite Z.pow_add_r, Z.pow_1_r by lia.
      pose proof (Z.pow_le_mono_r 2 (height r) (height l)). lia.
    + split; [lia|].
      rewrite Z.pow_add_r, Z.pow_1_r by lia.
      pose proof (Z.pow_le_mono_r 2 (height l) (height r)). lia.
Qed.

(** X1. [height] lies between the logarithm and the number of nodes:
    height(t) <= count(t) < 2^height(t); it is 0 exactly for the empty
    tree. *)
Theorem height_bounds t :
  0 <= height t <= Z.of_nat (count t)
  /\ Z.of_nat (count t) < 2 ^ height t
  /\ (height t = 0 <-> t = NULL).
Proof.
  destruct (height_range t) as [H1 H2]. split; [exact H1|].
  split; [exact H2|].
  destruct t as [|a k s l r]; [tauto|].
  split; [|discriminate]. cbn [height].
  pose proof (height_range l). pose proof (height_range r).
  destruct (height r <? height l); lia.
Qed.

(** X2. An insert into a tree that satisfies the size invariant and the
    ordering puts the new key, in in-order position, behind every key that
    is less than or equal to it and in front of every greater key, whether
    it descends or rebuilds; the other keys keep their order and the tree
    stays ordered. *)
Theorem insert_behind_equal_keys o bst key m :
  alloc_ok o ->
  size_inv (root bst) ->
  ordered (root bst) ->
  exists n bst' m' pre post,
    insertRBST o bst key m = Normal (n, bst') m'
    /\ inorder (root bst) = pre ++ post
    /\ inorder (root bst') = pre ++ key :: post
    /\ Forall (fun y => y <= key) pre
    /\ Forall (fun y => key < y) post
    /\ ordered (root bst').
Proof.
  intros Ho Hsi Hord.
  destruct (insertRBST_run o Ho bst key m Hsi) as
    (bst' & m' & Hrun & _ & _ & _ & Hin & _).
  specialize (Hin Hord).
  pose proof (proj1 (ordered_sorted _) Hord) as Hs.
  eexists _, bst', m', (take (rank key (inorder (root bst))) _),
    (drop (rank key (inorder (root bst))) _).
  split; [exact Hrun|].
  split; [now rewrite take_drop|].
  split; [rewrite Hin; apply place_rank|].
  split; [apply place_before|].
  split; [now apply place_behind|].
  apply ordered_sorted. rewrite Hin. now apply place_sorted.
Qed.

Lemma insert_behind_equal_keys_witness :
  alloc_ok never_rebuild /\
  size_inv (Node 1 5 2 NULL (Node 2 5 1 NULL NULL)) /\
  ordered (Node 1 5 2 NULL (Node 2 5 1 NULL NULL)) /\
  exists n bst' m' pre post,
    insertRBST never_rebuild
      {| rbst_self := 0; root := Node 1 5 2 NULL (Node 2 5 1 NULL NULL) |}
      5 (with_brk 3 boot) = Normal (n, bst') m'
    /\ [5; 5] = pre ++ post
    /\ inorder (root bst') = pre ++ 5 :: post
    /\ Forall (fun y => y <= 5) pre
    /\ Forall (fun y => 5 < y) post
    /\ ordered (root bst').
Proof.
  split; [exact never_rebuild_alloc|].
  split; [simpl; repeat split; lia|].
  split; [simpl; repeat split; repeat constructor; lia|].
  apply (insert_behind_equal_keys never_rebuild
           {| rbst_self := 0;
              root := Node 1 5 2 NULL (Node 2 5 1 NULL NULL) |} 5
           (with_brk 3 boot)).
  - intros i. reflexivity.
  - simpl. repeat split; lia.
  - simpl. repeat split; repeat constructor; lia.
Defined.

(** The nodes entered by the descent and the nodes of the rebuilt subtree
    share only the root of that subtree. *)
Lemma descended_rebuilt_le o x t :
  forall i c,
    rebuilt o x t i = Some c ->
    (descended o x t i + count c <= count t + 1)%nat
    /\ (count c <= count t)%nat.
Proof.
  induction t as [|a k s l IHl r IHr]; intros i c; cbn [rebuilt descended].
  - discriminate.
  - destruct (below_inverse (drand48_value o i) s).
    + intros [= <-]. cbn [count]. lia.
    + destruct (x <? k); intros H.
      * destruct (IHl _ _ H). cbn [count]. lia.
      * destruct (IHr _ _ H). cbn [count]. lia.
Qed.

(** Without a rebuild the descent follows one path from the root. *)
Lemma descended_le_height o x t :
  forall i,
    rebuilt o x t i = None ->
    Z.of_nat (descended o x t i) <= height t.
Proof.
  induction t as [|a k s l IHl r IHr]; intros i; cbn [rebuilt descended].
  - simpl. lia.
  - destruct (below_inverse (drand48_value o i) s); [discriminate|].
    cbn [height]. intros H.
    destruct (x <? k); [specialize (IHl _ H)|specialize (IHr _ H)];
      destruct (height r <? height l) eqn:E;
      [apply Z.ltb_lt in E|apply Z.ltb_ge in E
      |apply Z.ltb_lt in E|apply Z.ltb_ge in E]; lia.
Qed.

(** X3. The counter returned by an insert into a tree of n nodes that
    satisfies the size invariant is at least 1 and at most 2n + 3: linear
    in the worst case (reached when the whole tree is rebuilt); when no
    subtree is rebuilt it is at most 1 + height. *)
Theorem insert_counter_bounds o bst key m :
  alloc_ok o ->
  size_inv (root bst) ->
  exists n bst' m',
    insertRBST o bst key m = Normal (n, bst') m'
    /\ 1 <= n <= 2 * Z.of_nat (count (root bst)) + 3
    /\ (rebuilt o key (root bst) (drand48_calls m) = None ->
        n <= 1 + height (root bst))
    /\ (rebuilt o key (root bst) (drand48_calls m) = Some (root bst) ->
        n = 2 * Z.of_nat (count (root bst)) + 3).
Proof.
  intros Ho Hsi.
  destruct (insertRBST_run o Ho bst key m Hsi) as (bst' & m' & Hrun & _).
  eexists _, bst', m'. split; [exact Hrun|]. unfold work.
  destruct (rebuilt o key (root bst) (drand48_calls m)) as [c|] eqn:E.
  - destruct (descended_rebuilt_le _ _ _ _ _ E) as [H1 H2].
    split; [lia|]. split; [discriminate|].
    intros [= ->].
    destruct (root bst) as [|a k s l r]; [discriminate|].
    cbn [rebuilt descended] in *.
    destruct (below_inverse (drand48_value o (drand48_calls m)) s);
      [lia|].
    exfalso.
    assert (Hc : forall t i c, rebuilt o key t i = Some c ->
                   (count c <= count t)%nat)
      by (intros t i c Ht; apply (descended_rebuilt_le o key t i c Ht)).
    destruct (key <? k); apply Hc in E; cbn [count] in E; lia.
  - pose proof (descended_le_height _ _ _ _ E) as H.
    pose proof (height_range (root bst)) as H'.
    split; [lia|]. split; [intros _; lia|discriminate].
Qed.

Lemma insert_counter_bounds_witness :
  alloc_ok always_rebuild /\
  size_inv (Node 1 5 1 NULL NULL) /\
  exists n bst' m',
    insertRBST always_rebuild
      {| rbst_self := 0; root := Node 1 5 1 NULL NULL |} 7
      (with_brk 2 boot) = Normal (n, bst') m'
    /\ 1 <= n <= 2 * Z.of_nat 1 + 3
    /\ (rebuilt always_rebuild 7 (Node 1 5 1 NULL NULL) 0 = None ->
        n <= 1 + height (Node 1 5 1 NULL NULL))
    /\ (rebuilt always_rebuild 7 (Node 1 5 1 NULL NULL) 0 =
          Some (Node 1 5 1 NULL NULL) ->
        n = 2 * Z.of_nat 1 + 3).
Proof.
  split; [exact always_rebuild_alloc|].
  split; [simpl; repeat split; lia|].
  apply (insert_counter_bounds always_rebuild
           {| rbst_self := 0; root := Node 1 5 1 NULL NULL |} 7
           (with_brk 2 boot)).
  - intros i. reflexivity.
  - simpl. repeat split; lia.
Defined.

Arguments insertRBSTHelper : simpl nomatch.

(** The descent of [insertRBSTHelper] when no draw of drand48 triggers a
    rebuild: it only advances the two counters. No allocation, no release,
    no access to the array, no call of rand; this holds for every tree and
    every oracle. *)
Lemma insertRBSTHelper_descent o a x :
  forall t m,
    rebuilt o x t (drand48_calls m) = None ->
    exists t',
      insertRBSTHelper o t (Node a x 1 NULL NULL) m =
        Normal t'
          (with_nodesVisited
             (nodesVisited m +
              Z.of_nat (descended o x t (drand48_calls m)))
             (with_drand48_calls
                (drand48_calls m + descended o x t (drand48_calls m)) m))
      /\ Permutation (addrs t') (a :: addrs t)
      /\ Permutation (inorder t') (x :: inorder t)
      /\ height t <= height t' <= height t + 1
      /\ (t <> NULL ->
          subtree_size t' = subtree_size t + 1 /\
          exists self key l' r',
            t' = Node self key (subtree_size t + 1) l' r' /\
            exists l r, t = Node self key (subtree_size t) l r).
Proof.
  induction t as [|self key sz l IHl r IHr]; intros m Hreb.
  - exists (Node a x 1 NULL NULL).
    cbn [insertRBSTHelper]. unfold ret. cbn [descended]. unfold_setters.
    split.
    { destruct m; cbn. do 2 f_equal; lia. }
    cbn. repeat split; auto; try lia. congruence.
  - cbn [rebuilt descended] in *.
    cbn [insertRBSTHelper].
    unfold bind at 1. unfold incr_nodesVisited, modify.
    unfold bind at 1. rewrite drand48_run. unfold_setters.
    cbn [brk cells accesses freed rand_calls drand48_calls curIndex
         newNodeIndex isAdded nodesVisited].
    destruct (below_inverse (drand48_value o (drand48_calls m)) sz);
      [discriminate|].
    unfold bind at 1. cbn [key_of ret].
    destruct (x <? key) eqn:Ex.
    + unfold bind at 1.
      match goal with
      | |- context [insertRBSTHelper o l _ ?M] =>
          destruct (IHl M Hreb) as (l' & Hrun & Hpa & Hpi & Hh & _)
      end.
      rewrite Hrun. clear Hrun. unfold_setters.
      cbn [brk cells accesses freed rand_calls drand48_calls curIndex
           newNodeIndex isAdded nodesVisited].
      exists (Node self key (sz + 1) l' r). split.
      { unfold ret. do 2 f_equal; lia. }
      cbn [addrs inorder height subtree_size].
      split; [rewrite Hpa; apply perm_swap|].
      split; [rewrite Hpi; reflexivity|].
      split.
      { destruct (height r <? height l) eqn:E1;
          destruct (height r <? height l') eqn:E2;
          [apply Z.ltb_lt in E1|apply Z.ltb_lt in E1
          |apply Z.ltb_ge in E1|apply Z.ltb_ge in E1];
          [apply Z.ltb_lt in E2|apply Z.ltb_ge in E2
          |apply Z.ltb_lt in E2|apply Z.ltb_ge in E2]; lia. }
      intros _. split; [reflexivity|]. eauto 8.
    + unfold bind at 1.
      match goal with
      | |- context [insertRBSTHelper o r _ ?M] =>
          destruct (IHr M Hreb) as (r' & Hrun & Hpa & Hpi & Hh & _)
      end.
      rewrite Hrun. clear Hrun. unfold_setters.
      cbn [brk cells accesses freed rand_calls drand48_calls curIndex
           newNodeIndex isAdded nodesVisited].
      exists (Node self key (sz + 1) l r'). split.
      { unfold ret. do 2 f_equal; lia. }
      cbn [addrs inorder height subtree_size].
      split.
      { rewrite Hpa. rewrite <- Permutation_middle. apply perm_swap. }
      split.
      { rewrite Hpi. rewrite <- !Permutation_middle. apply perm_swap. }
      split.
      { destruct (height r <? height l) eqn:E1;
          destruct (height r' <? height l) eqn:E2;
          [apply Z.ltb_lt in E1|apply Z.ltb_lt in E1
          |apply Z.ltb_ge in E1|apply Z.ltb_ge in E1];
          [apply Z.ltb_lt in E2|apply Z.ltb_ge in E2
          |apply Z.ltb_lt in E2|apply Z.ltb_ge in E2]; lia. }
      intros _. split; [reflexivity|]. eauto 8.
Qed.

Arguments insertRBSTHelper : simpl never.

(** X4. An insert that triggers no rebuild is an ordinary insertion at a
    leaf, for every tree and every oracle whose malloc succeeds once: it
    allocates the one new Node, releases nothing, does not touch the array
    and does not call rand(); it draws drand48 once per Node on the path
    and returns 1 + the length of the path; the Nodes of the result are
    the old Nodes and the new one, the new key joins the keys, and the
    height grows by at most one. *)
Theorem insert_without_rebuild o bst key m :
  malloc_tape o (brk m) = true ->
  rebuilt o key (root bst) (drand48_calls m) = None ->
  let d := descended o key (root bst) (drand48_calls m) in
  exists bst',
    insertRBST o bst key m =
      Normal (1 + Z.of_nat d, bst')
        {| rand_calls := rand_calls m;
           drand48_calls := drand48_calls m + d;
           brk := S (brk m); freed := freed m; cells := cells m;
           accesses := accesses m; curIndex := curIndex m;
           newNodeIndex := newNodeIndex m; isAdded := isAdded m;
           nodesVisited := 1 + Z.of_nat d |}
    /\ rbst_self bst' = rbst_self bst
    /\ Permutation (addrs (root bst')) (brk m :: addrs (root bst))
    /\ Permutation (inorder (root bst')) (key :: inorder (root bst))
    /\ height (root bst) <= height (root bst') <= height (root bst) + 1
    /\ Z.of_nat d <= height (root bst).
Proof.
  intros Hm Hreb d. subst d.
  pose proof (descended_le_height _ _ _ _ Hreb) as Hd.
  unfold insertRBST.
  unfold bind at 1. unfold modify at 1.
  unfold bind at 1. unfold createNode, bind at 1, malloc. unfold_setters.
  cbn [brk cells accesses freed rand_calls drand48_calls curIndex
       newNodeIndex isAdded nodesVisited].
  rewrite Hm. unfold ret at 1.
  unfold bind at 1. unfold incr_nodesVisited, modify at 1.
  unfold_setters.
  cbn [brk cells accesses freed rand_calls drand48_calls curIndex
       newNodeIndex isAdded nodesVisited].
  destruct (root bst) as [|self k sz l r] eqn:Er.
  - eexists. split.
    { unfold bind, get, ret. cbn. do 2 f_equal. lia. }
    cbn. repeat split; auto; lia.
  - rewrite <- Er in *. unfold bind at 1.
    match goal with
    | |- context [insertRBSTHelper o _ _ ?M] =>
        destruct (insertRBSTHelper_descent o (brk m) key (root bst) M Hreb)
          as (t' & Hrun & Hpa & Hpi & Hh & _)
    end.
    rewrite Hrun. clear Hrun. unfold_setters.
    cbn [brk cells accesses freed rand_calls drand48_calls curIndex
         newNodeIndex isAdded nodesVisited].
    eexists. split.
    { unfold bind, get, ret. cbn. do 2 f_equal; lia. }
    cbn [rbst_self root]. repeat split; auto; lia.
Qed.

Lemma insert_without_rebuild_witness :
  malloc_tape never_rebuild 3 = true /\
  rebuilt never_rebuild 4 (Node 1 5 2 (Node 2 3 1 NULL NULL) NULL) 0 = None /\
  exists bst',
    insertRBST never_rebuild
      {| rbst_self := 0; root := Node 1 5 2 (Node 2 3 1 NULL NULL) NULL |}
      4 (with_brk 3 boot) =
      Normal (1 + Z.of_nat 2, bst')
        {| rand_calls := 0; drand48_calls := 0 + 2;
           brk := 4; freed := []; cells := [];
           accesses := []; curIndex := 0;
           newNodeIndex := None; isAdded := false;
           nodesVisited := 1 + Z.of_nat 2 |}
    /\ rbst_self bst' = 0%nat
    /\ Permutation (addrs (root bst')) [3; 1; 2]%nat
    /\ Permutation (inorder (root bst')) [4; 3; 5]
    /\ 2 <= height (root bst') <= 2 + 1
    /\ Z.of_nat 2 <= 2.
Proof.
  split; [reflexivity|]. split; [reflexivity|].
  apply (insert_without_rebuild never_rebuild
           {| rbst_self := 0;
              root := Node 1 5 2 (Node 2 3 1 NULL NULL) NULL |} 4
           (with_brk 3 boot)); reflexivity.
Defined.

Lemma slice_sorted ks first last :
  StronglySorted Z.le ks -> StronglySorted Z.le (slice ks first last).
Proof.
  intros H. unfold slice.
  rewrite <- (take_drop (Z.to_nat first) ks) in H.
  apply StronglySorted_app_1_r in H.
  rewrite <- (take_drop (Z.to_nat (last - first + 1))
                (drop (Z.to_nat first) ks)) in H.
  now apply StronglySorted_app_1_l in H.
Qed.

(** X5. When every allocation succeeds, [makeRBST] with random pivots
    (isAdded true), on a range [first, last] of an array that is written in
    full, returns for every sequence of values of rand() a tree whose
    in-order keys are exactly the
    cells first..last in array order, which satisfies the size invariant
    and, when the array is sorted, the ordering; it creates last-first+1
    Nodes at fresh consecutive addresses, counts each once, releases
    nothing and leaves the array as it is. *)
Theorem makeRBST_builds_range o p ks nni fuel first last m :
  alloc_ok o ->
  cells m = Some <$> ks ->
  0 <= first -> last < Z.of_nat (length ks) -> first <= last + 1 ->
  (Z.to_nat (last - first + 1) <= fuel)%nat ->
  exists t m',
    makeRBST o fuel (Some p) first last nni true m = Normal t m'
    /\ inorder t = slice ks first last
    /\ size_inv t
    /\ (StronglySorted Z.le ks -> ordered t)
    /\ Z.of_nat (count t) = last - first + 1
    /\ addrs t = seq (brk m) (count t)
    /\ brk m' = (brk m + count t)%nat
    /\ nodesVisited m' = nodesVisited m + (last - first + 1)
    /\ freed m' = freed m
    /\ cells m' = cells m.
Proof.
  intros Ho Hc Hf Hl Hfl Hfuel.
  destruct (makeRBST_random o Ho p ks nni fuel first last m Hc Hf Hl Hfl
              Hfuel) as (t & rc & idxs & Hrun & Hin & Hsi & _ & Ha & _).
  assert (Hcnt : Z.of_nat (count t) = last - first + 1).
  { rewrite <- inorder_length, Hin, slice_length by lia. lia. }
  eexists t, _. split; [exact Hrun|].
  cbn [brk nodesVisited freed cells].
  repeat split; auto; try lia.
  intros Hs. apply ordered_sorted. rewrite Hin. now apply slice_sorted.
Qed.

Lemma makeRBST_builds_range_witness :
  alloc_ok always_rebuild /\
  cells (with_array [Some 1; Some 2; Some 3; Some 4] [] boot) =
    Some <$> [1; 2; 3; 4] /\
  0 <= 1 /\ 3 < Z.of_nat (length [1; 2; 3; 4]) /\ 1 <= 3 + 1 /\
  (Z.to_nat (3 - 1 + 1) <= 3)%nat /\
  exists t m',
    makeRBST always_rebuild 3 (Some 0%nat) 1 3 0 true
      (with_array [Some 1; Some 2; Some 3; Some 4] [] boot) = Normal t m'
    /\ inorder t = slice [1; 2; 3; 4] 1 3
    /\ size_inv t
    /\ (StronglySorted Z.le [1; 2; 3; 4] -> ordered t)
    /\ Z.of_nat (count t) = 3 - 1 + 1
    /\ addrs t = seq 0 (count t)
    /\ brk m' = (0 + count t)%nat
    /\ nodesVisited m' = 0 + (3 - 1 + 1)
    /\ freed m' = []
    /\ cells m' = [Some 1; Some 2; Some 3; Some 4].
Proof.
  split; [exact always_rebuild_alloc|].
  split; [reflexivity|].
  split; [lia|]. split; [simpl; lia|]. split; [lia|]. split; [simpl; lia|].
  apply (makeRBST_builds_range always_rebuild 0 [1; 2; 3; 4] 0 3 1 3
           (with_array [Some 1; Some 2; Some 3; Some 4] [] boot)).
  - intros i. reflexivity.
  - reflexivity.
  - lia.
  - simpl. lia.
  - lia.
  - simpl. lia.
Defined.

Lemma rank_lt_Exists x l :
  (rank x l < length l)%nat <-> Exists (fun y => x < y) l.
Proof.
  induction l as [|y l IH]; simpl.
  - split; [lia|inversion 1].
  - destruct (x <? y) eqn:E.
    + split; [intros _; left; lia|lia].
    + split.
      * intros H. right. apply IH. lia.
      * intros H. inversion H as [? ? H1|? ? H1]; subst; [lia|].
        apply IH in H1. lia.
Qed.

(** X6. [flattenRBST] consumes any subtree, ordered or not: started on
    count + 1 indeterminate cells with curIndex 0 and the flag false, it
    writes the in-order keys with the new key in front of the first key
    that is strictly greater (at the end when there is none: then the flag
    stays false), releases every Node of the subtree once, children before
    their parent, counts each Node once, allocates nothing and draws no
    random number. *)
Theorem flatten_consumes_subtree p a x sz0 l0 r0 t m :
  cells m = replicate (S (count t)) None ->
  curIndex m = 0 ->
  isAdded m = false ->
  flattenRBST (Some p) (Node a x sz0 l0 r0) t (Z.of_nat (count t) + 1) m =
    Normal tt
      {| rand_calls := rand_calls m; drand48_calls := drand48_calls m;
         brk := brk m; freed := freed m ++ postorder t;
         cells := Some <$> place x (inorder t);
         accesses := accesses m ++
                     (Wr <$> seqZ 0 (Z.of_nat (count t) + 1));
         curIndex := Z.of_nat (count t) + 1;
         newNodeIndex := Some (Z.of_nat (rank x (inorder t)));
         isAdded := (rank x (inorder t) <? count t)%nat;
         nodesVisited := nodesVisited m + Z.of_nat (count t) |}
  /\ ((rank x (inorder t) <? count t)%nat = true <->
      Exists (fun y => x < y) (inorder t)).
Proof.
  intros Hc Hi Hadd.
  pose proof (inorder_length t) as Hks.
  split.
  - erewrite (flattenRBST_run p a x sz0 l0 r0 _ t m [] (S (count t)));
      [|exact Hc|exact Hi|cbn; lia|rewrite Hadd; lia|reflexivity].
    rewrite Hadd, fold_visit_pending, Hks. cbn [length app].
    pose proof (rank_le x (inorder t)) as Hr.
    destruct (rank x (inorder t) <? count t)%nat eqn:E.
    + apply Nat.ltb_lt in E. cbn [finish negb andb fst snd].
      rewrite place_length, Hks.
      replace (0 + S (count t) - S (count t))%nat with 0%nat by lia.
      replace (Z.of_nat (S (count t)) - Z.of_nat 0)
        with (Z.of_nat (count t) + 1) by lia.
      replace (Z.of_nat (S (count t))) with (Z.of_nat (count t) + 1) by lia.
      cbn [replicate Nat.add Z.of_nat]. rewrite app_nil_r. reflexivity.
    + apply Nat.ltb_ge in E. unfold finish. cbn [negb andb].
      rewrite Hks.
      replace (Z.of_nat (count t) =? Z.of_nat (count t) + 1 - 1) with true
        by (symmetry; apply Z.eqb_eq; lia).
      cbn [fst snd].
      destruct (rank_lt_or x (inorder t)) as [H1|H1]; [lia|].
      rewrite <- H1, place_length, Hks.
      replace (0 + S (count t) - S (count t))%nat with 0%nat by lia.
      replace (Z.of_nat (S (count t)) - Z.of_nat 0)
        with (Z.of_nat (count t) + 1) by lia.
      replace (Z.of_nat (S (count t))) with (Z.of_nat (count t) + 1) by lia.
      replace (rank x (inorder t)) with (count t) by lia.
      cbn [replicate Nat.add Z.of_nat]. rewrite app_nil_r. reflexivity.
  - rewrite Nat.ltb_lt, <- Hks. apply rank_lt_Exists.
Qed.

Lemma flatten_consumes_subtree_witness :
  cells (with_array [None; None; None] [] boot) =
    replicate (S (count (Node 1 5 9 NULL (Node 2 3 9 NULL NULL)))) None /\
  curIndex (with_array [None; None; None] [] boot) = 0 /\
  isAdded (with_array [None; None; None] [] boot) = false /\
  flattenRBST (Some 7%nat) (Node 4 4 1 NULL NULL)
    (Node 1 5 9 NULL (Node 2 3 9 NULL NULL)) (Z.of_nat 2 + 1)
    (with_array [None; None; None] [] boot) =
    Normal tt
      {| rand_calls := 0; drand48_calls := 0; brk := 0;
         freed := [] ++ [2; 1]%nat;
         cells := Some <$> [4; 5; 3];
         accesses := [] ++ (Wr <$> seqZ 0 (Z.of_nat 2 + 1));
         curIndex := Z.of_nat 2 + 1;
         newNodeIndex := Some (Z.of_nat 0);
         isAdded := true;
         nodesVisited := 0 + Z.of_nat 2 |}
  /\ (true = true <-> Exists (fun y => 4 < y) [5; 3]).
Proof.
  split; [reflexivity|]. split; [reflexivity|]. split; [reflexivity|].
  apply (flatten_consumes_subtree 7 4 4 1 NULL NULL
           (Node 1 5 9 NULL (Node 2 3 9 NULL NULL))
           (with_array [None; None; None] [] boot)); reflexivity.
Defined.

(** X7. [reconstructRBST] on a subtree of s Nodes whose root stores s
    takes one block for the array and s + 1 blocks for the Nodes of the
    result, at consecutive fresh addresses, and releases the s old Nodes
    (children before parents), then the Node passed in, then the array:
    the blocks that stay allocated are exactly the Nodes of the result. It
    increments the counter 2s + 1 times and does not call drand48. *)
Theorem rebuild_resources o t a x sz0 l0 r0 m :
  alloc_ok o ->
  t <> NULL ->
  subtree_size t = Z.of_nat (count t) ->
  exists t' m',
    reconstructRBST o t (Node a x sz0 l0 r0) m = Normal t' m'
    /\ count t' = S (count t)
    /\ size_inv t'
    /\ inorder t' = place x (inorder t)
    /\ addrs t' = seq (S (brk m)) (S (count t))
    /\ brk m' = (brk m + 1 + S (count t))%nat
    /\ freed m' = freed m ++ postorder t ++ [a; brk m]
    /\ cells m' = []
    /\ nodesVisited m' = nodesVisited m + (2 * Z.of_nat (count t) + 1)
    /\ drand48_calls m' = drand48_calls m.
Proof.
  intros Ho Hnn Hsz.
  destruct (reconstructRBST_run o Ho t a x sz0 l0 r0 m Hnn Hsz) as
    (tl & tr & rc & idxs & b & Hrun & Hin & Hsi & Hcnt & Haddr & _).
  eexists _, _. split; [exact Hrun|].
  cbn [count inorder addrs brk freed cells nodesVisited drand48_calls].
  repeat split; auto; try apply Hsi; lia.
Qed.

Lemma rebuild_resources_witness :
  alloc_ok always_rebuild /\
  Node 1 5 2 (Node 2 3 1 NULL NULL) NULL <> NULL /\
  subtree_size (Node 1 5 2 (Node 2 3 1 NULL NULL) NULL) =
    Z.of_nat (count (Node 1 5 2 (Node 2 3 1 NULL NULL) NULL)) /\
  exists t' m',
    reconstructRBST always_rebuild (Node 1 5 2 (Node 2 3 1 NULL NULL) NULL)
      (Node 3 4 1 NULL NULL) (with_brk 4 boot) = Normal t' m'
    /\ count t' = 3%nat
    /\ size_inv t'
    /\ inorder t' = [3; 4; 5]
    /\ addrs t' = [5; 6; 7]%nat
    /\ brk m' = 8%nat
    /\ freed m' = [2; 1; 3; 4]%nat
    /\ cells m' = []
    /\ nodesVisited m' = 0 + (2 * Z.of_nat 2 + 1)
    /\ drand48_calls m' = 0%nat.
Proof.
  split; [exact always_rebuild_alloc|].
  split; [discriminate|]. split; [reflexivity|].
  apply (rebuild_resources always_rebuild
           (Node 1 5 2 (Node 2 3 1 NULL NULL) NULL) 3 4 1 NULL NULL
           (with_brk 4 boot)).
  - intros i. reflexivity.
  - discriminate.
  - reflexivity.
Defined.

(** *** Outcomes for an arbitrary oracle *)

Lemma createNode_ends o key m :
  ends (createNode o key m)
       (fun t m' => t = Node (brk m) key 1 NULL NULL /\
                    m' = with_brk (S (brk m)) m)
       False.
Proof.
  unfold createNode, bind, malloc.
  destruct (malloc_tape o (brk m)); cbn; auto.
Qed.

(** [makeRBST] on a written array, pinned or not: it returns or the
    process exits; the array is left as it is. *)
Lemma makeRBST_ends o p ks :
  forall fuel first last nni isAdded m,
    cells m = Some <$> ks ->
    0 <= first -> last < Z.of_nat (length ks) ->
    (isAdded = false -> first <= nni <= last) ->
    (Z.to_nat (last - first + 1) <= fuel)%nat ->
    ends (makeRBST o fuel (Some p) first last nni isAdded m)
         (fun _ m' => cells m' = cells m) False.
Proof.
  induction fuel as [|fuel IH];
    intros first last nni isAdded m Hc Hf Hl Hpin Hfuel.
  - unfold makeRBST.
    replace (last <? first) with true by (symmetry; apply Z.ltb_lt; lia).
    reflexivity.
  - unfold makeRBST; fold makeRBST.
    destruct (last <? first) eqn:E; [reflexivity|].
    apply Z.ltb_ge in E.
    unfold bind at 1. unfold incr_nodesVisited, modify.
    set (m0 := with_nodesVisited (nodesVisited m + 1) m).
    assert (Hc0 : cells m0 = Some <$> ks) by exact Hc.
    assert (Hstep : forall index m1,
              cells m1 = Some <$> ks -> first <= index <= last ->
              ends ((do k <- load (Some p) index;
                     do newNode <- createNode o k;
                     do l <- makeRBST o fuel (Some p) first (index - 1)
                                      nni true;
                     do r <- makeRBST o fuel (Some p) (index + 1) last
                                      nni true;
                     adopt newNode l r) m1)
                   (fun _ m' => cells m' = cells m1) False).
    { intros index m1 Hc1 Hidx.
      destruct (ks !! Z.to_nat index) as [v|] eqn:Ev;
        [|apply lookup_ge_None in Ev; lia].
      unfold bind at 1.
      rewrite (load_run p m1 ks index v Hc1) by (lia || exact Ev).
      unfold bind at 1.
      pose proof (createNode_ends o v
                    (with_array (cells m1) (accesses m1 ++ [Rd index]) m1))
        as Hn.
      destruct (createNode o v _) as [nn m2| | |]; cbn in Hn |- *; auto.
      destruct Hn as [-> ->].
      unfold bind at 1.
      match goal with
      | |- context [makeRBST o fuel (Some p) first (index - 1) nni true ?M] =>
          pose proof (IH first (index - 1) nni true M) as Hl';
          destruct (makeRBST o fuel (Some p) first (index - 1) nni true M)
            as [tl m3| | |]
      end;
        (cbn in Hl'; specialize (Hl' Hc1 Hf); cbn in Hl');
        try (apply Hl'; (lia || discriminate)).
      assert (Hc3 : cells m3 = cells m1)
        by (apply Hl'; (lia || discriminate)).
      unfold bind at 1.
      pose proof (IH (index + 1) last nni true m3) as Hr'.
      destruct (makeRBST o fuel (Some p) (index + 1) last nni true m3)
        as [tr m4| | |];
        cbn in Hr' |- *;
        try (apply Hr'; (lia || discriminate || congruence)).
      rewrite adopt_run. cbn.
      rewrite <- Hc3. apply Hr'; (lia || discriminate || congruence). }
    destruct isAdded; cbn [negb].
    + unfold bind at 1. unfold rand.
      set (rnd := Z.of_N (rand_tape o (rand_calls m0))).
      set (index := first + Z.rem rnd (last - first + 1)).
      assert (Hidx : first <= index <= last).
      { pose proof (Z.rem_bound_pos rnd (last - first + 1)).
        subst index rnd. lia. }
      apply (Hstep index (with_rand_calls (S (rand_calls m0)) m0) Hc0 Hidx).
    + apply (Hstep nni m0 Hc0 (Hpin eq_refl)).
Qed.

(** With a null array the first store of [flattenRBST] faults. *)
Lemma flattenRBST_null_array N L t :
  forall m, t <> NULL -> flattenRBST None N t L m = Fault.
Proof.
  induction t as [|self key sz l IHl r _]; intros m Hnn; [congruence|].
  unfold flattenRBST; fold flattenRBST. unfold bind at 1.
  destruct l as [|ls lk lsz ll lr].
  - unfold flattenRBST at 1. unfold bind, get.
    destruct (negb (isAdded m) && (curIndex m =? L - 1)).
    + destruct N; reflexivity.
    + destruct N as [|na nk ns nl nr]; [reflexivity|].
      cbn [key_of ret].
      destruct ((nk <? key) && negb (isAdded m)); reflexivity.
  - rewrite IHl by discriminate. reflexivity.
Qed.

(** [reconstructRBST] for an arbitrary oracle: the only fault is the
    store through a null array. *)
Lemma reconstructRBST_ends o t a x sz0 l0 r0 m :
  t <> NULL ->
  subtree_size t = Z.of_nat (count t) ->
  ends (reconstructRBST o t (Node a x sz0 l0 r0) m)
       (fun _ _ => True) (malloc_tape o (brk m) = false).
Proof.
  intros Hnn Hsz.
  pose proof (inorder_length t) as Hks.
  unfold reconstructRBST. unfold bind at 1.
  rewrite (size_of_run t m Hnn), Hsz.
  unfold bind at 1. unfold malloc_ints, bind, malloc, modify, ret.
  destruct (malloc_tape o (brk m)) eqn:Em.
  - unfold_setters. cbn [brk cells accesses freed rand_calls
      drand48_calls curIndex newNodeIndex isAdded nodesVisited].
    destruct (traversal_place x (inorder t) None) as [b Hb].
    rewrite Hks in Hb.
    replace (Z.to_nat (Z.of_nat (count t) + 1)) with (S (count t)) by lia.
    erewrite (flattenRBST_run (brk m) a x sz0 l0 r0 _ t _ [] (S (count t)));
      [|reflexivity|reflexivity|cbn; lia|cbn; lia|exact Hb].
    cbn.
    rewrite place_length, Hks, Nat.sub_diag. cbn. rewrite app_nil_r.
    unfold_setters. cbn.
    match goal with
    | |- ends (match ?c ?M with Normal _ _ => _ | _ => _ end) _ _ =>
        assert (Hmk : ends (c M) (fun _ m' => cells m' = cells M) False)
          by (apply (makeRBST_ends o (brk m) (place x (inorder t))
                       (S (count t)) 0 (Z.of_nat (count t) + 1 - 1)
                       (Z.of_nat (rank x (inorder t))) false M);
              try reflexivity; try lia;
              try (rewrite place_length; lia);
              intros _; pose proof (rank_le x (inorder t)); lia);
        destruct (c M) as [t' m'|s| |]
    end; cbn in Hmk |- *; auto; contradiction.
  - unfold_setters. cbn [brk cells accesses freed rand_calls
      drand48_calls curIndex newNodeIndex isAdded nodesVisited].
    rewrite flattenRBST_null_array by exact Hnn. reflexivity.
Qed.

Arguments insertRBSTHelper : simpl nomatch.

Lemma insertRBSTHelper_ends o a x :
  forall t m,
    size_inv t ->
    ends (insertRBSTHelper o t (Node a x 1 NULL NULL) m)
         (fun _ _ => True) (malloc_tape o (brk m) = false).
Proof.
  induction t as [|self key sz l IHl r IHr]; intros m Hsi.
  - exact I.
  - cbn [insertRBSTHelper]. unfold bind at 1.
    unfold incr_nodesVisited, modify.
    unfold bind at 1. rewrite drand48_run. unfold_setters.
    cbn [brk cells accesses freed rand_calls drand48_calls curIndex
         newNodeIndex isAdded nodesVisited].
    destruct (below_inverse (drand48_value o (drand48_calls m)) sz).
    + match goal with
      | |- ends (reconstructRBST o ?T ?N ?M) _ _ =>
          apply (reconstructRBST_ends o T a x 1 NULL NULL M);
            [discriminate|apply (size_inv_count T Hsi)]
      end.
    + unfold bind at 1. cbn [key_of ret].
      destruct Hsi as (_ & Hsl & Hsr).
      destruct (x <? key); unfold bind at 1.
      * match goal with
        | |- context [insertRBSTHelper o l _ ?M] =>
            pose proof (IHl M Hsl) as H;
            destruct (insertRBSTHelper o l _ M)
        end; cbn in H |- *; auto.
      * match goal with
        | |- context [insertRBSTHelper o r _ ?M] =>
            pose proof (IHr M Hsr) as H;
            destruct (insertRBSTHelper o r _ M)
        end; cbn in H |- *; auto.
Qed.

Arguments insertRBSTHelper : simpl never.

Lemma insertRBST_ends o bst key m :
  size_inv (root bst) ->
  ends (insertRBST o bst key m)
       (fun _ _ => malloc_tape o (brk m) = true)
       (malloc_tape o (brk m) = true /\ malloc_tape o (S (brk m)) = false).
Proof.
  intros Hsi. unfold insertRBST.
  unfold bind at 1. unfold modify at 1.
  unfold bind at 1. unfold createNode, bind at 1, malloc. unfold_setters.
  cbn [brk cells accesses freed rand_calls drand48_calls curIndex
       newNodeIndex isAdded nodesVisited].
  destruct (malloc_tape o (brk m)) eqn:Em; [|reflexivity].
  unfold ret at 1.
  unfold bind at 1. unfold incr_nodesVisited, modify at 1.
  unfold_setters.
  cbn [brk cells accesses freed rand_calls drand48_calls curIndex
       newNodeIndex isAdded nodesVisited].
  destruct (root bst) as [|self k sz l r] eqn:Er.
  - reflexivity.
  - rewrite <- Er in *. unfold bind at 1.
    match goal with
    | |- context [insertRBSTHelper o _ _ ?M] =>
        pose proof (insertRBSTHelper_ends o (brk m) key (root bst) M Hsi)
          as H;
        destruct (insertRBSTHelper o (root bst) _ M) as [t' m'|s| |]
    end; cbn in H |- *; auto.
Qed.

(** X8. Whatever malloc does, an insert into a tree that satisfies the
    size invariant ends in one of three ways: it returns (then its own
    Node was allocated); or the process is terminated by exit with status
    0 (never when every allocation succeeds); or it goes through a null
    pointer, and this happens only when the Node of the key was allocated
    and the next allocation, the array of the rebuild, failed. The
    recursion bound of the model is never reached. *)
Theorem insert_outcomes o bst key m :
  size_inv (root bst) ->
  match insertRBST o bst key m with
  | Normal _ _ => malloc_tape o (brk m) = true
  | Exit status => status = 0 /\ ~ alloc_ok o
  | Fault =>
      malloc_tape o (brk m) = true /\ malloc_tape o (S (brk m)) = false
  | OutOfFuel => False
  end.
Proof.
  intros Hsi.
  pose proof (insertRBST_ends o bst key m Hsi) as H.
  destruct (insertRBST o bst key m) as [r m'|s| |] eqn:E; cbn in H; auto.
  split; [exact H|]. intros Ho.
  destruct (insertRBST_run o Ho bst key m Hsi) as (? & ? & Hrun & _).
  congruence.
Qed.

Lemma insert_outcomes_witness :
  match insertRBST (exhausted_at 1)
          {| rbst_self := 0; root := Node 1 5 1 NULL NULL |} 7 boot with
  | Normal _ _ => malloc_tape (exhausted_at 1) (brk boot) = true
  | Exit status => status = 0 /\ ~ alloc_ok (exhausted_at 1)
  | Fault =>
      malloc_tape (exhausted_at 1) (brk boot) = true /\
      malloc_tape (exhausted_at 1) (S (brk boot)) = false
  | OutOfFuel => False
  end.
Proof.
  apply (insert_outcomes (exhausted_at 1)
           {| rbst_self := 0; root := Node 1 5 1 NULL NULL |} 7 boot).
  cbn. repeat split; reflexivity.
Defined.

(** X9. [freeRBST] on any handle, whatever its size fields and its keys:
    it returns the number of Nodes of the tree, releases every Node after
    the Nodes of both its subtrees and the handle last, and changes
    nothing else but the counter. *)
Theorem teardown_any_tree bst m :
  freeRBST bst m =
    Normal (Z.of_nat (count (root bst)))
      {| rand_calls := rand_calls m; drand48_calls := drand48_calls m;
         brk := brk m;
         freed := freed m ++ postorder (root bst) ++ [rbst_self bst];
         cells := cells m; accesses := accesses m;
         curIndex := curIndex m; newNodeIndex := newNodeIndex m;
         isAdded := isAdded m;
         nodesVisited := Z.of_nat (count (root bst)) |}
  /\ Permutation (postorder (root bst)) (addrs (root bst)).
Proof.
  split; [apply freeRBST_run|apply postorder_perm].
Qed.

(** *** The driver *)

Lemma work_bounds o x t i :
  1 <= work o x t i <= 2 * Z.of_nat (count t) + 3.
Proof.
  unfold work. destruct (rebuilt o x t i) as [c|] eqn:E.
  - destruct (descended_rebuilt_le _ _ _ _ _ E). lia.
  - pose proof (descended_le_height _ _ _ _ E).
    pose proof (height_range t). lia.
Qed.

Lemma fillKeys_run o :
  forall count i keys m,
    0 <= i ->
    (Z.to_nat i + count <= length keys)%nat ->
    fillKeys o count i keys m =
      Normal (take (Z.to_nat i) keys ++
              (Some <$> rands o (rand_calls m) count) ++
              drop (Z.to_nat i + count) keys)
             (with_rand_calls (rand_calls m + count) m).
Proof.
  intros c. induction c as [|c IH]; intros i keys m Hi Hlen.
  - cbn. unfold ret. rewrite Nat.add_0_r, take_drop.
    destruct m; unfold_setters; cbn. do 2 f_equal. lia.
  - cbn [fillKeys]. unfold bind at 1, rand.
    replace ((0 <=? i) && (i <? Z.of_nat (length keys))) with true
      by (symmetry; apply andb_true_iff; split;
          [apply Z.leb_le|apply Z.ltb_lt]; lia).
    rewrite IH; [|lia|rewrite length_insert; lia].
    replace (Z.to_nat (i + 1)) with (S (Z.to_nat i)) by lia.
    rewrite (take_S_r _ _ (Some (Z.of_N (rand_tape o (rand_calls m)))))
      by (apply list_lookup_insert_eq; lia).
    rewrite take_insert_ge by lia.
    rewrite drop_insert_lt by lia.
    unfold rands. cbn [seq fmap list_fmap].
    unfold_setters. cbn [rand_calls].
    replace (S (Z.to_nat i) + c)%nat with (Z.to_nat i + S c)%nat
      by lia.
    replace (S (rand_calls m) + c)%nat with (rand_calls m + S c)%nat
      by lia.
    rewrite <- !app_assoc. reflexivity.
Qed.

(** The second loop of [testInsertRBST] reads the keys back in order. *)
Lemma insertFrom_insertKeys o :
  forall ks i keys bst total m,
    0 <= i ->
    take (length ks) (drop (Z.to_nat i) keys) = Some <$> ks ->
    insertFrom o (length ks) i keys bst total m =
      insertKeys o bst ks total m.
Proof.
  induction ks as [|k ks IH]; intros i keys bst total m Hi Hks.
  - reflexivity.
  - assert (Hk : keys !! Z.to_nat i = Some (Some k)).
    { rewrite <- (Nat.add_0_r (Z.to_nat i)), <- lookup_drop.
      destruct (drop (Z.to_nat i) keys); [discriminate|].
      cbn in Hks. now injection Hks as -> _. }
    pose proof (lookup_lt_Some _ _ _ Hk) as Hlt.
    cbn [length insertFrom insertKeys].
    replace ((0 <=? i) && (i <? Z.of_nat (length keys))) with true
      by (symmetry; apply andb_true_iff; split;
          [apply Z.leb_le|apply Z.ltb_lt]; lia).
    rewrite Hk. unfold bind.
    destruct (insertRBST o bst k m) as [r m'| | |]; try reflexivity.
    apply IH; [lia|].
    replace (Z.to_nat (i + 1)) with (S (Z.to_nat i)) by lia.
    rewrite (drop_S _ _ _ Hk) in Hks. cbn in Hks.
    now injection Hks.
Qed.

(** The sum of the counters of a run of insertions. *)
Lemma insertKeys_total o (Ho : alloc_ok o) :
  forall keys bst m total n bst' m',
    size_inv (root bst) ->
    insertKeys o bst keys total m = Normal (n, bst') m' ->
    total + Z.of_nat (length keys) <= n
    /\ n <= total + Z.of_nat (length keys) *
                    (2 * Z.of_nat (count (root bst)) +
                     Z.of_nat (length keys) + 2).
Proof.
  induction keys as [|k keys IH]; intros bst m total n bst' m' Hsi Hrun.
  - cbn in Hrun. injection Hrun as <- _ _. cbn. lia.
  - cbn [insertKeys] in Hrun. unfold bind at 1 in Hrun.
    destruct (insertRBST_run o Ho bst k m Hsi) as
      (bst1 & m1 & Hrun1 & _ & Hsi1 & Hcnt1 & _).
    rewrite Hrun1 in Hrun. cbn [fst snd] in Hrun.
    destruct (IH _ _ _ _ _ _ Hsi1 Hrun) as [Hlo Hhi].
    pose proof (work_bounds o k (root bst) (drand48_calls m)) as Hw.
    rewrite Hcnt1 in Hhi. cbn [length]. split; [lia|]. nia.
Qed.

(** [testInsertRBST] when every allocation succeeds and the array holds
    [n] cells. *)
Lemma testInsertRBST_run o (Ho : alloc_ok o) n keys m :
  (Z.to_nat n <= length keys)%nat ->
  exists total bst' m1,
    testInsertRBST o n keys m =
      Normal {| test_return := total + Z.of_nat (count (root bst'));
                test_keys :=
                  (Some <$> rands o (rand_calls m) (Z.to_nat n)) ++
                  drop (Z.to_nat n) keys;
                test_height := height (root bst') |}
             (with_nodesVisited (Z.of_nat (count (root bst')))
                (with_freed
                   (freed m1 ++ postorder (root bst') ++ [brk m]) m1))
    /\ count (root bst') = Z.to_nat n
    /\ Z.of_nat (Z.to_nat n) <= total
    /\ total <= Z.of_nat (Z.to_nat n) * (Z.of_nat (Z.to_nat n) + 2)
    /\ inorder (root bst') = placed (rands o (rand_calls m) (Z.to_nat n)) []
    /\ (S (brk m) <= brk m1)%nat
    /\ Permutation (freed m1 ++ addrs (root bst'))
         (freed m ++ seq (S (brk m)) (brk m1 - S (brk m))).
Proof.
  intros Hlen. unfold testInsertRBST.
  unfold bind at 1. rewrite (initRBST_run o Ho).
  unfold bind at 1. rewrite fillKeys_run by (cbn; lia).
  change (Z.to_nat 0) with 0%nat. rewrite take_0. cbn [app Nat.add].
  set (ks := rands o (rand_calls m) (Z.to_nat n)).
  assert (Hks : length ks = Z.to_nat n)
    by (unfold ks, rands; now rewrite length_fmap, length_seq).
  unfold bind at 1.
  match goal with
  | |- context [insertFrom o (Z.to_nat n) 0 ?K ?B 0 ?M] =>
      replace (insertFrom o (Z.to_nat n) 0 K B 0 M)
        with (insertKeys o B ks 0 M)
        by (rewrite <- (insertFrom_insertKeys o ks 0 K B 0 M);
            [now rewrite Hks|lia
            |change (Z.to_nat 0) with 0%nat; rewrite drop_0;
             apply take_app_length'; now rewrite length_fmap])
  end.
  match goal with
  | |- context [insertKeys o ?B ks 0 ?M] =>
      destruct (insertKeys_run o Ho ks B M 0) as
        (total & bst' & m1 & Hrun & Hself & Hwf & Hin & Hcnt & Hbrk & Hp);
      [cbn; repeat split; constructor|];
      pose proof (insertKeys_total o Ho ks B M 0 total bst' m1 I Hrun)
        as [Hlo Hhi]
  end.
  rewrite Hrun. cbn [fst snd].
  unfold bind at 1. rewrite freeRBST_run. unfold ret.
  cbn [root count inorder addrs app brk freed rbst_self] in *.
  rewrite Hself.
  exists total, bst', m1. split; [reflexivity|].
  rewrite Hks in *. repeat split; try lia; auto.
Qed.



(** X11. When every allocation succeeds and the array holds at least n
    cells, [testInsertRBST] releases, exactly once each, every block
    allocated during the call: the handle, the Nodes and the arrays of
    the rebuilds. It releases no other block. *)
Theorem testInsertRBST_releases_all o n keys m :
  alloc_ok o ->
  (Z.to_nat n <= length keys)%nat ->
  exists r m',
    testInsertRBST o n keys m = Normal r m'
    /\ (brk m < brk m')%nat
    /\ Permutation (freed m')
         (freed m ++ seq (brk m) (brk m' - brk m)).
Proof.
  intros Ho Hlen.
  destruct (testInsertRBST_run o Ho n keys m Hlen) as
    (total & bst' & m1 & Hrun & _ & _ & _ & _ & Hbrk & Hp).
  eexists _, _. split; [exact Hrun|].
  unfold_setters. cbn [brk freed]. split; [lia|].
  rewrite postorder_perm, app_assoc, Hp.
  replace (brk m1 - brk m)%nat with (S (brk m1 - S (brk m))) by lia.
  cbn [seq]. rewrite <- app_assoc.
  apply Permutation_app_head. symmetry. apply Permutation_cons_append.
Qed.

Lemma testInsertRBST_releases_all_witness :
  alloc_ok always_rebuild /\
  (Z.to_nat 3 <= length [@None Z; None; None])%nat /\
  exists r m',
    testInsertRBST always_rebuild 3 [@None Z; None; None] boot = Normal r m'
    /\ (brk boot < brk m')%nat
    /\ Permutation (freed m')
         (freed boot ++ seq (brk boot) (brk m' - brk boot)).
Proof.
  split; [exact always_rebuild_alloc|].
  split; [simpl; lia|].
  apply (testInsertRBST_releases_all always_rebuild 3 [@None Z; None; None]
           boot).
  - intros i. reflexivity.
  - simpl. lia.
Defined.





(** *** Random numbers drawn and blocks allocated *)

Lemma load_inv p i m k m' :
  load p i m = Normal k m' ->
  rand_calls m' = rand_calls m /\ drand48_calls m' = drand48_calls m
  /\ brk m' = brk m.
Proof.
  unfold load. destruct p; [|discriminate].
  destruct ((0 <=? i) && (i <? Z.of_nat (length (cells m))));
    [|discriminate].
  destruct (cells m !! Z.to_nat i) as [[v|]|]; try discriminate.
  intros [= <- <-]. auto.
Qed.

Lemma createNode_inv o k m n m' :
  createNode o k m = Normal n m' ->
  count n = 1%nat /\ rand_calls m' = rand_calls m
  /\ drand48_calls m' = drand48_calls m /\ brk m' = S (brk m).
Proof.
  unfold createNode, bind, malloc.
  destruct (malloc_tape o (brk m)); [|discriminate].
  intros [= <- <-]. auto.
Qed.

Lemma adopt_inv n l r m t m' :
  adopt n l r m = Normal t m' ->
  m' = m /\ count t = S (count l + count r).
Proof.
  unfold adopt. destruct n; [discriminate|].
  intros [= <- <-]. auto.
Qed.

(** Every Node that [makeRBST] creates costs one allocation, and one call
    of rand unless it is the pinned root. *)
Lemma makeRBST_draws o p nni :
  forall fuel first last b m t m',
    makeRBST o fuel p first last nni b m = Normal t m' ->
    drand48_calls m' = drand48_calls m
    /\ brk m' = (brk m + count t)%nat
    /\ rand_calls m' =
         (rand_calls m + if b then count t else pred (count t))%nat.
Proof.
  induction fuel as [|fuel IH]; intros first last b m t m';
    unfold makeRBST; fold makeRBST;
    (destruct (last <? first);
     [intros [= <- <-]; destruct b; cbn; auto with lia|]);
    [discriminate|].
  unfold bind at 1. unfold incr_nodesVisited, modify.
  assert (Hstep : forall index m1,
            rand_calls m1 = (rand_calls m + if b then 1 else 0)%nat ->
            drand48_calls m1 = drand48_calls m -> brk m1 = brk m ->
            (do k <- load p index;
             do newNode <- createNode o k;
             do l <- makeRBST o fuel p first (index - 1) nni true;
             do r <- makeRBST o fuel p (index + 1) last nni true;
             adopt newNode l r) m1 = Normal t m' ->
            drand48_calls m' = drand48_calls m
            /\ brk m' = (brk m + count t)%nat
            /\ rand_calls m' =
                 (rand_calls m + if b then count t else pred (count t))%nat).
  { intros index m1 Hr Hd Hb.
    unfold bind at 1.
    destruct (load p index m1) as [k m2| | |] eqn:El; try discriminate.
    destruct (load_inv _ _ _ _ _ El) as (Hr2 & Hd2 & Hb2).
    unfold bind at 1.
    destruct (createNode o k m2) as [n m3| | |] eqn:Ec; try discriminate.
    destruct (createNode_inv _ _ _ _ _ Ec) as (Hn & Hr3 & Hd3 & Hb3).
    unfold bind at 1.
    destruct (makeRBST o fuel p first (index - 1) nni true m3)
      as [tl m4| | |] eqn:E1; try discriminate.
    destruct (IH _ _ _ _ _ _ E1) as (Hd4 & Hb4 & Hr4).
    unfold bind at 1.
    destruct (makeRBST o fuel p (index + 1) last nni true m4)
      as [tr m5| | |] eqn:E2; try discriminate.
    destruct (IH _ _ _ _ _ _ E2) as (Hd5 & Hb5 & Hr5).
    intros Ha. destruct (adopt_inv _ _ _ _ _ _ Ha) as [-> Hc].
    rewrite Hc. destruct b; cbn [pred]; repeat split; lia. }
  destruct b; cbn [negb].
  - unfold bind at 1, rand. apply Hstep; reflexivity || (cbn; lia).
  - apply Hstep; reflexivity || (cbn; lia).
Qed.

Lemma reconstructRBST_draws o t a x sz0 l0 r0 m t' m' :
  t <> NULL ->
  subtree_size t = Z.of_nat (count t) ->
  reconstructRBST o t (Node a x sz0 l0 r0) m = Normal t' m' ->
  rand_calls m' = (rand_calls m + pred (count t'))%nat.
Proof.
  intros Hnn Hsz.
  pose proof (inorder_length t) as Hks.
  unfold reconstructRBST. unfold bind at 1.
  rewrite (size_of_run t m Hnn), Hsz.
  unfold bind at 1. unfold malloc_ints, bind, malloc, modify, ret.
  destruct (malloc_tape o (brk m)) eqn:Em.
  - unfold_setters. cbn [brk cells accesses freed rand_calls
      drand48_calls curIndex newNodeIndex isAdded nodesVisited].
    destruct (traversal_place x (inorder t) None) as [b Hb].
    rewrite Hks in Hb.
    replace (Z.to_nat (Z.of_nat (count t) + 1)) with (S (count t)) by lia.
    erewrite (flattenRBST_run (brk m) a x sz0 l0 r0 _ t _ [] (S (count t)));
      [|reflexivity|reflexivity|cbn; lia|cbn; lia|exact Hb].
    cbn.
    rewrite place_length, Hks, Nat.sub_diag. cbn. rewrite app_nil_r.
    unfold_setters. cbn.
    match goal with
    | |- match ?c ?M with Normal _ _ => _ | _ => _ end = _ -> _ =>
        destruct (c M) as [t1 m1|s| |] eqn:E; try discriminate;
        apply (makeRBST_draws o (Some (brk m)) (Z.of_nat (rank x (inorder t)))
                 (S (count t)) 0 (Z.of_nat (count t) + 1 - 1) false M)
          in E
    end.
    destruct E as (_ & _ & E). cbn in E.
    intros [= <- <-]. cbn. exact E.
  - unfold_setters. cbn [brk cells accesses freed rand_calls
      drand48_calls curIndex newNodeIndex isAdded nodesVisited].
    rewrite flattenRBST_null_array by exact Hnn. discriminate.
Qed.

Arguments insertRBSTHelper : simpl nomatch.

Lemma insertRBSTHelper_draws o (Ho : alloc_ok o) a x :
  forall t m t' m',
    size_inv t ->
    insertRBSTHelper o t (Node a x 1 NULL NULL) m = Normal t' m' ->
    drand48_calls m' = (drand48_calls m + descended o x t (drand48_calls m))%nat
    /\ rand_calls m' =
         (rand_calls m +
          match rebuilt o x t (drand48_calls m) with
          | None => 0
          | Some c => count c
          end)%nat
    /\ brk m' =
         (brk m +
          match rebuilt o x t (drand48_calls m) with
          | None => 0
          | Some c => count c + 2
          end)%nat.
Proof.
  induction t as [|self key sz l IHl r IHr]; intros m t' m' Hsi.
  - cbn. intros [= <- <-]. repeat split; lia.
  - cbn [insertRBSTHelper descended rebuilt]. unfold bind at 1.
    unfold incr_nodesVisited, modify.
    unfold bind at 1. rewrite drand48_run. unfold_setters.
    cbn [brk cells accesses freed rand_calls drand48_calls curIndex
         newNodeIndex isAdded nodesVisited].
    destruct (below_inverse (drand48_value o (drand48_calls m)) sz).
    + intros Hrun.
      match type of Hrun with
      | reconstructRBST o ?T ?N ?M = _ =>
          assert (Hnn : T <> NULL) by discriminate;
          pose proof (reconstructRBST_draws o T a x 1 NULL NULL M t' m'
                        Hnn (size_inv_count T Hsi) Hrun) as Hr;
          destruct (reconstructRBST_run o Ho T a x 1 NULL NULL M
                      Hnn (size_inv_count T Hsi))
            as (tl & tr & rc & idxs & b & Hrun' & _ & _ & Hcnt & _)
      end.
      rewrite Hrun' in Hrun. injection Hrun as <- <-.
      cbn [rand_calls drand48_calls brk count pred] in *.
      rewrite Hcnt in Hr. repeat split; lia.
    + unfold bind at 1. cbn [key_of ret].
      destruct Hsi as (_ & Hsl & Hsr).
      destruct (x <? key); unfold bind at 1.
      * match goal with
        | |- context [insertRBSTHelper o l _ ?M] =>
            destruct (insertRBSTHelper o l _ M) as [l' m1| | |] eqn:E;
              try discriminate;
            destruct (IHl _ _ _ Hsl E) as (Hd & Hr & Hb)
        end.
        intros [= <- <-]. cbn [rand_calls drand48_calls brk] in *.
        repeat split; lia.
      * match goal with
        | |- context [insertRBSTHelper o r _ ?M] =>
            destruct (insertRBSTHelper o r _ M) as [r' m1| | |] eqn:E;
              try discriminate;
            destruct (IHr _ _ _ Hsr E) as (Hd & Hr & Hb)
        end.
        intros [= <- <-]. cbn [rand_calls drand48_calls brk] in *.
        repeat split; lia.
Qed.

Arguments insertRBSTHelper : simpl never.

(** X14. What an insert draws and allocates, when every allocation
    succeeds and the tree satisfies the size invariant: one value of
    drand48 per Node entered by the descent; one value of rand per Node of
    the subtree that is rebuilt, none without a rebuild; one block for the
    new Node and, in a rebuild of s Nodes, s + 2 more (the array and the
    s + 1 Nodes of the result). *)
Theorem insert_draws o bst key m :
  alloc_ok o ->
  size_inv (root bst) ->
  exists n bst' m',
    insertRBST o bst key m = Normal (n, bst') m'
    /\ drand48_calls m' =
         (drand48_calls m +
          descended o key (root bst) (drand48_calls m))%nat
    /\ rand_calls m' =
         (rand_calls m +
          match rebuilt o key (root bst) (drand48_calls m) with
          | None => 0
          | Some c => count c
          end)%nat
    /\ brk m' =
         (brk m + 1 +
          match rebuilt o key (root bst) (drand48_calls m) with
          | None => 0
          | Some c => count c + 2
          end)%nat.
Proof.
  intros Ho Hsi.
  destruct (insertRBST_run o Ho bst key m Hsi) as (bst' & m' & Hrun & _).
  eexists _, bst', m'. split; [exact Hrun|].
  revert Hrun. unfold insertRBST.
  unfold bind at 1. unfold modify at 1.
  unfold bind at 1. rewrite (createNode_run o Ho).
  unfold bind at 1. unfold incr_nodesVisited, modify at 1.
  unfold_setters.
  cbn [brk cells accesses freed rand_calls drand48_calls curIndex
       newNodeIndex isAdded nodesVisited].
  destruct (root bst) as [|self k sz l r] eqn:Er.
  - cbn. intros H. injection H; intros; subst. cbn. repeat split; lia.
  - rewrite <- Er in *. unfold bind at 1.
    match goal with
    | |- context [insertRBSTHelper o _ _ ?M] =>
        destruct (insertRBSTHelper o (root bst) _ M) as [t1 m1| | |] eqn:E;
          try discriminate;
        destruct (insertRBSTHelper_draws o Ho _ _ _ _ _ _ Hsi E)
          as (Hd & Hr & Hb)
    end.
    unfold bind, get, ret. intros H. injection H; intros; subst.
    cbn [rand_calls drand48_calls brk] in *.
    repeat split; lia.
Qed.

Lemma insert_draws_witness :
  alloc_ok always_rebuild /\
  size_inv (Node 1 5 1 NULL NULL) /\
  exists n bst' m',
    insertRBST always_rebuild
      {| rbst_self := 0; root := Node 1 5 1 NULL NULL |} 7
      (with_brk 2 boot) = Normal (n, bst') m'
    /\ drand48_calls m' =
         (drand48_calls (with_brk 2 boot) +
          descended always_rebuild 7 (Node 1 5 1 NULL NULL)
            (drand48_calls (with_brk 2 boot)))%nat
    /\ rand_calls m' =
         (rand_calls (with_brk 2 boot) +
          match rebuilt always_rebuild 7 (Node 1 5 1 NULL NULL)
                  (drand48_calls (with_brk 2 boot)) with
          | None => 0
          | Some c => count c
          end)%nat
    /\ brk m' =
         (brk (with_brk 2 boot) + 1 +
          match rebuilt always_rebuild 7 (Node 1 5 1 NULL NULL)
                  (drand48_calls (with_brk 2 boot)) with
          | None => 0
          | Some c => count c + 2
          end)%nat.
Proof.
  split; [exact always_rebuild_alloc|].
  split; [simpl; repeat split; lia|].
  apply (insert_draws always_rebuild
           {| rbst_self := 0; root := Node 1 5 1 NULL NULL |} 7
           (with_brk 2 boot)).
  - intros i. reflexivity.
  - simpl. repeat split; lia.
Defined.

(** *** Sorted input when no draw triggers a rebuild *)

(** A draw of at least one half is not below 1 / (size + 1) when the size
    field is positive. *)
Lemma below_inverse_half d s :
  (1 # 2 <= d)%Q -> 1 <= s -> below_inverse d s = false.
Proof.
  intros Hd Hs. unfold below_inverse.
  destruct (s + 1 =? 0) eqn:E; [apply Z.eqb_eq in E; lia|].
  apply negb_false_iff, Qle_bool_iff.
  apply Qle_trans with (1 # 2)%Q; [|exact Hd].
  destruct (s + 1) as [|p|p] eqn:Ep; try lia.
  unfold Qle, Qdiv, Qmult, Qinv, inject_Z. cbn. lia.
Qed.

Arguments insertRBSTHelper : simpl nomatch.

Lemma insertRBSTHelper_chain o a x :
  (forall i, (1 # 2 <= drand48_value o i)%Q) ->
  forall t m,
    right_chain t -> size_inv t -> Forall (fun y => y <= x) (inorder t) ->
    exists t' m',
      insertRBSTHelper o t (Node a x 1 NULL NULL) m = Normal t' m'
      /\ right_chain t' /\ size_inv t'
      /\ inorder t' = inorder t ++ [x]
      /\ count t' = S (count t)
      /\ height t' = height t + 1
      /\ nodesVisited m' = nodesVisited m + Z.of_nat (count t).
Proof.
  intros Hd.
  induction t as [|self key sz l _ r IHr]; intros m Hch Hsi Hle.
  - exists (Node a x 1 NULL NULL), m. cbn. repeat split; auto; lia.
  - destruct Hch as [-> Hch]. destruct Hsi as (Hsz & _ & Hsr).
    cbn [inorder app] in Hle. apply Forall_cons in Hle as [Hk Hle].
    pose proof (size_inv_count r Hsr) as Hcr.
    cbn [subtree_size] in Hsz.
    cbn [insertRBSTHelper]. unfold bind at 1.
    unfold incr_nodesVisited, modify.
    unfold bind at 1. rewrite drand48_run.
    rewrite below_inverse_half by (auto; lia).
    unfold bind at 1. cbn [key_of ret].
    replace (x <? key) with false by (symmetry; apply Z.ltb_ge; lia).
    unfold bind at 1.
    match goal with
    | |- context [insertRBSTHelper o r _ ?M] =>
        destruct (IHr M Hch Hsr Hle)
          as (r' & m' & Hrun & Hch' & Hsi' & Hin' & Hcnt' & Hh' & Hnv')
    end.
    rewrite Hrun. eexists _, m'. split; [reflexivity|].
    pose proof (size_inv_count r' Hsi') as Hcr'.
    pose proof (height_range r) as Hhr.
    unfold_setters. cbn [nodesVisited] in Hnv'.
    cbn [right_chain size_inv inorder count height subtree_size app].
    repeat split; auto; try lia.
    + now rewrite Hin'.
    + rewrite Hh'.
      destruct (height r + 1 <? 0) eqn:E1; [apply Z.ltb_lt in E1; lia|].
      destruct (height r <? 0) eqn:E2; [apply Z.ltb_lt in E2; lia|].
      reflexivity.
Qed.

Arguments insertRBSTHelper : simpl never.

Lemma insertKeys_chain o (Ho : alloc_ok o) :
  (forall i, (1 # 2 <= drand48_value o i)%Q) ->
  forall keys bst m total,
    right_chain (root bst) -> size_inv (root bst) ->
    height (root bst) = Z.of_nat (count (root bst)) ->
    StronglySorted Z.le (inorder (root bst) ++ keys) ->
    exists n bst' m',
      insertKeys o bst keys total m = Normal (n, bst') m'
      /\ inorder (root bst') = inorder (root bst) ++ keys
      /\ height (root bst') =
           Z.of_nat (count (root bst)) + Z.of_nat (length keys)
      /\ 2 * (n - total) =
           Z.of_nat (length keys) *
           (Z.of_nat (length keys) + 1 + 2 * Z.of_nat (count (root bst))).
Proof.
  intros Hd.
  induction keys as [|k keys IH]; intros bst m total Hch Hsi Hh Hsort.
  - exists total, bst, m. cbn. rewrite app_nil_r.
    repeat split; auto; lia.
  - assert (Hle : Forall (fun y => y <= k) (inorder (root bst))).
    { apply Forall_forall. intros y Hy.
      eapply StronglySorted_app_1_elem_of; [exact Hsort|exact Hy|].
      apply elem_of_cons. now left. }
    assert (Hstep : exists bst1 m1,
               insertRBST o bst k m =
                 Normal (1 + Z.of_nat (count (root bst)), bst1) m1
               /\ right_chain (root bst1) /\ size_inv (root bst1)
               /\ inorder (root bst1) = inorder (root bst) ++ [k]
               /\ count (root bst1) = S (count (root bst))
               /\ height (root bst1) = height (root bst) + 1).
    { unfold insertRBST.
      unfold bind at 1. unfold modify at 1.
      unfold bind at 1. rewrite (createNode_run o Ho).
      unfold bind at 1. unfold incr_nodesVisited, modify at 1.
      unfold_setters.
      cbn [brk cells accesses freed rand_calls drand48_calls curIndex
           newNodeIndex isAdded nodesVisited].
      destruct (root bst) as [|self key sz l r] eqn:Er.
      - eexists _, _. split; [reflexivity|]. cbn. repeat split; auto.
      - rewrite <- Er in *. unfold bind at 1.
        match goal with
        | |- context [insertRBSTHelper o _ _ ?M] =>
            destruct (insertRBSTHelper_chain o (brk m) k Hd (root bst) M
                        Hch Hsi Hle)
              as (t' & m' & Hrun & Hch' & Hsi' & Hin' & Hcnt' & Hh' & Hnv')
        end.
        rewrite Hrun. cbn [nodesVisited] in Hnv'.
        eexists _, _. split.
        { unfold bind, get, ret. rewrite Hnv'.
          replace (0 + 1 + Z.of_nat (count (root bst)))
            with (1 + Z.of_nat (count (root bst))) by lia.
          reflexivity. }
        cbn [root]. auto. }
    destruct Hstep as (bst1 & m1 & Hrun & Hch1 & Hsi1 & Hin1 & Hcnt1 & Hh1).
    cbn [insertKeys]. unfold bind at 1. rewrite Hrun. cbn [fst snd].
    destruct (IH bst1 m1 (total + (1 + Z.of_nat (count (root bst))))
                Hch1 Hsi1)
      as (n & bst' & m' & Hrun' & Hin' & Hh' & Hn');
      [lia|rewrite Hin1, <- app_assoc; exact Hsort|].
    exists n, bst', m'. split; [exact Hrun'|].
    rewrite Hin', Hin1, <- app_assoc, Hh', Hcnt1. cbn [length app].
    rewrite Hcnt1 in Hn'.
    repeat split; auto; try lia.
Qed.

(** X15. The balance depends on the draws: when every allocation succeeds
    and every value of drand48 is at least one half, the insertion of n
    keys in non-decreasing order into a fresh tree builds a chain: the
    in-order keys are the input, the height is n and the counters of the n
    inserts add up to n (n + 1) / 2. *)
Theorem sorted_input_degenerates o keys m :
  alloc_ok o ->
  (forall i, (1 # 2 <= drand48_value o i)%Q) ->
  StronglySorted Z.le keys ->
  exists total bst m',
    (do bst <- initRBST o; insertKeys o bst keys 0) m =
      Normal (total, bst) m'
    /\ inorder (root bst) = keys
    /\ height (root bst) = Z.of_nat (length keys)
    /\ 2 * total = Z.of_nat (length keys) * (Z.of_nat (length keys) + 1).
Proof.
  intros Ho Hd Hsort.
  unfold bind at 1. rewrite (initRBST_run o Ho).
  destruct (insertKeys_chain o Ho Hd keys
              {| rbst_self := brk m; root := NULL |}
              (with_brk (S (brk m)) m) 0)
    as (n & bst' & m' & Hrun & Hin & Hh & Hn); cbn; auto.
  exists n, bst', m'. split; [exact Hrun|].
  cbn in Hin, Hh, Hn. rewrite Z.sub_0_r in Hn.
  change (Z.of_nat 0) with 0 in *.
  split; [exact Hin|]. split; [lia|]. rewrite Hn. f_equal. lia.
Qed.

Lemma sorted_input_degenerates_witness :
  alloc_ok never_rebuild /\
  (forall i, (1 # 2 <= drand48_value never_rebuild i)%Q) /\
  StronglySorted Z.le [1; 2; 2] /\
  exists total bst m',
    (do bst <- initRBST never_rebuild;
     insertKeys never_rebuild bst [1; 2; 2] 0) boot =
      Normal (total, bst) m'
    /\ inorder (root bst) = [1; 2; 2]
    /\ height (root bst) = Z.of_nat (length [1; 2; 2])
    /\ 2 * total =
         Z.of_nat (length [1; 2; 2]) * (Z.of_nat (length [1; 2; 2]) + 1).
Proof.
  split; [exact never_rebuild_alloc|].
  split; [intros i; vm_compute; discriminate|].
  split; [repeat constructor; lia|].
  apply (sorted_input_degenerates never_rebuild [1; 2; 2] boot).
  - intros i. reflexivity.
  - intros i. vm_compute. discriminate.
  - repeat constructor; lia.
Defined.
